(** * deno-script: task dispatch and command execution

    A shallow embedding of the runner ([run], [setWorkingDir], [runTasks],
    [newBuiltinsTasks]), of the command executor ([exec], [_exec]) and of the
    helpers they call ([printTasks], [rightPad], [extractFunctionDocs]).

    The JavaScript the code relies on is written out where it matters:
    [String.prototype.replace] with a string pattern replaces the first match
    only, [JSON.stringify] prints an [Error] instance as an empty object,
    calling [.catch] on a value that is not a promise is a [TypeError], and a
    [finally] block that throws replaces the pending completion. *)

From Stdlib Require Import ZArith Ascii.
From stdpp Require Import gmap strings list pretty sorting.

Local Open Scope Z_scope.
Local Open Scope string_scope.

(** ** JavaScript values *)

Module Js.

(** The values that travel as results and as thrown errors. [VError] is an
    instance of [Error] (or of a subclass: [TypeError], [NotFound], ...). None
    of these values has a [catch] method: promises are kept apart, in
    [Invocation] below. *)
Inductive Val :=
| VUndefined
| VNull
| VBool (b : bool)
| VNum (n : Z)
| VStr (s : string)
| VError (name msg : string).

(** [`${v}`]: string conversion. [Error.prototype.toString] joins name and
    message. *)
Definition to_string (v : Val) : string :=
  match v with
  | VUndefined => "undefined"
  | VNull => "null"
  | VBool true => "true"
  | VBool false => "false"
  | VNum n => pretty n
  | VStr s => s
  | VError name msg =>
      if String.eqb msg "" then name
      else if String.eqb name "" then msg
      else name +:+ ": " +:+ msg
  end.

Definition dquote : string := String (ascii_of_N 34) "".

(** The line feed, as in ['\n']. *)
Definition nl : string := String (ascii_of_N 10) "".

Definition hex_digit (n : N) : ascii :=
  ascii_of_N (if (n <? 10)%N then 48 + n else 87 + n)%N.

(** [QuoteJSONString]: the two-character escapes, [\u00xx] for the other
    control characters, everything else as it is. *)
Definition json_escape (c : ascii) : string :=
  let n := N_of_ascii c in
  if (n =? 34)%N then "\" +:+ dquote
  else if (n =? 92)%N then "\\"
  else if (n =? 8)%N then "\b"
  else if (n =? 9)%N then "\t"
  else if (n =? 10)%N then "\n"
  else if (n =? 12)%N then "\f"
  else if (n =? 13)%N then "\r"
  else if (n <? 32)%N then
    "\u00" +:+ String (hex_digit (n / 16)) (String (hex_digit (n mod 16)) "")
  else String c "".

Fixpoint json_escape_all (s : string) : string :=
  match s with
  | EmptyString => ""
  | String c rest => json_escape c +:+ json_escape_all rest
  end.

Definition json_quote (s : string) : string :=
  dquote +:+ json_escape_all s +:+ dquote.

(** [`${JSON.stringify(v)}`]. The own properties of an [Error] instance
    ([message], [stack]) are not enumerable, so it prints as an empty object;
    [JSON.stringify(undefined)] is [undefined]. *)
Definition json_stringify (v : Val) : string :=
  match v with
  | VUndefined => "undefined"
  | VNull => "null"
  | VBool true => "true"
  | VBool false => "false"
  | VNum n => pretty n
  | VStr s => json_quote s
  | VError _ _ => "{}"
  end.

(** [s.split(' ')]: the pieces between single spaces, empty pieces kept. *)
Fixpoint split_on (sep : ascii) (s : string) : list string :=
  match s with
  | EmptyString => [""]
  | String c rest =>
      if Ascii.eqb c sep then "" :: split_on sep rest
      else match split_on sep rest with
           | [] => [String c ""]
           | piece :: pieces => String c piece :: pieces
           end
  end.

(** [s.replace(from, to)] with a one-character string pattern: the first
    occurrence only is replaced. *)
Fixpoint replace_first (from to : ascii) (s : string) : string :=
  match s with
  | EmptyString => ""
  | String c rest =>
      if Ascii.eqb c from then String to rest
      else String c (replace_first from to rest)
  end.

(** Every occurrence replaced: what [s.replace(/-/g, '_')] would give. The
    code does not call it; it is the reading of the dash rule to compare
    [replace_first] with. *)
Fixpoint replace_every (from to : ascii) (s : string) : string :=
  match s with
  | EmptyString => ""
  | String c rest =>
      String (if Ascii.eqb c from then to else c) (replace_every from to rest)
  end.

(** [s.substring(1)] *)
Definition substring_from_1 (s : string) : string :=
  match s with
  | EmptyString => ""
  | String _ rest => rest
  end.

(** Truthiness of an optional string: absent and empty are falsy. *)
Definition truthy_str (o : option string) : bool :=
  match o with
  | Some s => negb (String.eqb s "")
  | None => false
  end.

End Js.

Import Js.

(** ** The process and what the code does to it *)

(** Levels of logger.ts. *)
Inductive LogLevel := TRACE | DEBUG | INFO | WARN | ERROR | FATAL | OFF.

(** [Deno.RunOptions], as far as the code fills it in. *)
Record RunOptions := {
  ro_cmd : list string;
  ro_cwd : option string;
  ro_env : option (list (string * string));
  ro_stdout : option string;
  ro_stderr : option string;
}.

(** [ExecOptions = Omit<Deno.RunOptions, 'stdout' | 'stderr'>] *)
Record ExecOptions := {
  eo_cmd : list string;
  eo_cwd : option string;
  eo_env : option (list (string * string));
}.

(** What a command given to [exec] looks like when it is printed or logged: a
    function shows its source text. *)
Inductive CmdShape :=
| ShString (s : string)
| ShArray (l : list string)
| ShFunction (source : string).

Record OptsShape := {
  sh_cmd : CmdShape;
  sh_dir : option string;
  sh_env : option (list (string * string));
  sh_silent : option bool;
  sh_logError : option bool;
}.

(** The further arguments of a logger call. *)
Inductive LogArg :=
| LVal (v : Val)
| LStr (s : string)
| LStrs (l : list string)
| LCmd (c : CmdShape)
| LOpts (o : OptsShape).

(** What leaves the code. [EvLog] is a call of [trace], [debug], [info] or
    [error] on a logger, named by the argument of the [getLogger] that made
    it: the call the code makes. Whether the appender prints it is the
    logger's business (its level), not the dispatcher's or the executor's. *)
Inductive Event :=
| EvLog (logger : string) (level : LogLevel) (msg : string) (args : list LogArg)
| EvLogLevel (level : string)
| EvConsole (text : string)
| EvRun (o : RunOptions).

(** The state of the process. [wd] is the working directory as the path below
    the root, so that [Deno.cwd()] is absolute by construction; [dirs] are
    the directories that can be entered, written the same way. Paths are
    compared as written, with no treatment of dot segments or links. *)
Record World := {
  wd : string;
  dirs : list string;
  environ : list (string * string);
  events : list Event;
}.

Definition emit (e : Event) (w : World) : World :=
  {| wd := wd w; dirs := dirs w; environ := environ w; events := events w ++ [e] |}.

Definition console_lines (w : World) : list string :=
  omap (fun e => match e with EvConsole t => Some t | _ => None end) (events w).

Definition spawned (w : World) : list RunOptions :=
  omap (fun e => match e with EvRun o => Some o | _ => None end) (events w).

(** How an awaited piece of code ends. [Hangs]: the awaited promise never
    settles, nothing after the [await] runs, not even a [finally]. *)
Inductive Completion (A : Type) :=
| Returned (a : A)
| Threw (e : Val)
| Hangs.
Arguments Returned {A} a.
Arguments Threw {A} e.
Arguments Hangs {A}.

(** Code over the process state. *)
Definition M (A : Type) : Type := World -> World * Completion A.

Definition ret {A} (a : A) : M A := fun w => (w, Returned a).

Definition throw {A} (e : Val) : M A := fun w => (w, Threw e).

Definition bind {A B} (k : A -> M B) (m : M A) : M B :=
  fun w =>
    match m w with
    | (w1, Returned a) => k a w1
    | (w1, Threw e) => (w1, Threw e)
    | (w1, Hangs) => (w1, Hangs)
    end.

(** stdpp's notations: [x ← m; k] and [m;; k]. *)
#[global] Instance M_ret : MRet M := @ret.
#[global] Instance M_bind : MBind M := @bind.

(** [try { body } catch (err) { handler }] *)
Definition try_catch {A} (body : M A) (handler : Val -> M A) : M A :=
  fun w =>
    match body w with
    | (w1, Threw e) => handler e w1
    | other => other
    end.

(** [try { body } finally { cleanup }]: the cleanup runs on return and on
    throw; when it throws itself, its error is the one that leaves. *)
Definition try_finally {A} (body : M A) (cleanup : M unit) : M A :=
  fun w =>
    match body w with
    | (w1, Hangs) => (w1, Hangs)
    | (w1, c) =>
        match cleanup w1 with
        | (w2, Returned _) => (w2, c)
        | (w2, Threw e) => (w2, Threw e)
        | (w2, Hangs) => (w2, Hangs)
        end
    end.

Definition when_ (b : bool) (m : M unit) : M unit := if b then m else ret tt.

(** A call of [level] on the logger [logger]. *)
Definition log (logger : string) (level : LogLevel) (msg : string)
    (args : list LogArg) : M unit :=
  fun w => (emit (EvLog logger level msg args) w, Returned tt).

Definition console_log (text : string) : M unit :=
  fun w => (emit (EvConsole text) w, Returned tt).

(** [loggerFactory.level = level] *)
Definition set_log_level (level : string) : M unit :=
  fun w => (emit (EvLogLevel level) w, Returned tt).

(** *** The working directory *)

Definition not_found (what : string) : Val :=
  VError "NotFound" ("No such file or directory (os error 2): " +:+ what).

Definition dir_exists (d : string) (w : World) : bool :=
  bool_decide (d ∈ dirs w).

(** [Deno.cwd()]: throws when the directory is gone. *)
Definition Deno_cwd : M string :=
  fun w =>
    if dir_exists (wd w) w then (w, Returned ("/" +:+ wd w))
    else (w, Threw (not_found "getcwd")).

(** Where [Deno.chdir(d)] leads from [cur]: an absolute path stands for
    itself, a relative one is taken from the current directory. *)
Definition chdir_target (cur d : string) : string :=
  match d with
  | String "/" below => below
  | _ => if String.eqb cur "" then d else cur +:+ "/" +:+ d
  end.

(** [Deno.chdir(d)]: throws, and changes nothing, when the target cannot be
    entered. *)
Definition Deno_chdir (d : string) : M unit :=
  fun w =>
    let t := chdir_target (wd w) d in
    if dir_exists t w then
      ({| wd := t; dirs := dirs w; environ := environ w; events := events w |},
       Returned tt)
    else (w, Threw (not_found ("chdir '" +:+ d +:+ "'"))).

(** *** Calls and promises *)

Inductive Settlement :=
| Fulfilled (v : Val)
| Rejected (e : Val)
| Pending.

(** What calling a function gives: the call throws, or it returns a value
    that is not a promise, or it returns a promise. *)
Inductive Invocation :=
| ThrowsSync (e : Val)
| ReturnsValue (v : Val)
| ReturnsPromise (s : Settlement).

(** A call takes the state it is made in to the state once everything it
    started has ended. The code of a task or of a function given to [exec]
    is not known: it may do anything to the process, move it to another
    directory, make or remove directories, print. *)
Definition Call : Type := World -> World * Invocation.

(** The error of [v.catch(...)] on a value with no such method. *)
Definition no_catch_method (callee : string) (v : Val) : Val :=
  match v with
  | VUndefined | VNull =>
      VError "TypeError"
        ("Cannot read properties of " +:+ to_string v +:+ " (reading 'catch')")
  | _ => VError "TypeError" (callee +:+ "(...).catch is not a function")
  end.

(** [await f(...).catch((err) => { throw err })] *)
Definition await_catch (callee : string) (call : Call) : M Val :=
  fun w =>
    match call w with
    | (w1, ThrowsSync e) => (w1, Threw e)
    | (w1, ReturnsValue v) => (w1, Threw (no_catch_method callee v))
    | (w1, ReturnsPromise (Fulfilled v)) => (w1, Returned v)
    | (w1, ReturnsPromise (Rejected e)) => (w1, Threw e)
    | (w1, ReturnsPromise Pending) => (w1, Hangs)
    end.

(** An [async] function around a body: it always returns a promise. *)
Definition async {A} (body : M A) : Call :=
  fun w =>
    match body w with
    | (w1, Returned _) => (w1, ReturnsPromise (Fulfilled VUndefined))
    | (w1, Threw e) => (w1, ReturnsPromise (Rejected e))
    | (w1, Hangs) => (w1, ReturnsPromise Pending)
    end.

(** ** What the code gets from Deno and from deps.ts *)

(** How a spawned process ends. *)
Inductive ProcessEnd :=
| SpawnFails (e : Val)
| Exits (out err : list Byte.byte) (success : bool) (code : Z)
| NeverExits.

Record Platform := {
  (** [Deno.run(o)] to the end of the process: the directories it leaves
      behind, and how it ended. A child process cannot move its parent's
      working directory. *)
  spawn : RunOptions -> World -> list string * ProcessEnd;
  (** [new TextDecoder().decode] *)
  decode : list Byte.byte -> string;
  (** [Deno.remove(path, { recursive: true })] *)
  remove : string -> World -> list string * option Val;
  (** [new URL(u).pathname]; [None]: not a URL *)
  url_pathname : string -> option string;
  (** [path.dirname] and [path.join] of deps.ts *)
  path_dirname : string -> string;
  path_join : string -> string -> string;
  (** [Deno.build.os === 'windows'] *)
  is_windows : bool;
}.

(** ** exec.ts *)

Record JsFunction := {
  fn_source : string;
  fn_call : Call;
}.

Inductive Cmd :=
| CmdString (s : string)
| CmdArray (l : list string)
| CmdFunction (f : JsFunction).

Record ExecOpts := {
  cmd : Cmd;
  dir : option string;
  env : option (list (string * string));
  silent : option bool;
  logError : option bool;
}.

(** The argument of [exec]: [string | string[] | { cmd, dir?, ... }]. *)
Inductive ExecInput :=
| InString (s : string)
| InArray (l : list string)
| InOpts (o : ExecOpts).

(** The argument of [_exec]. *)
Inductive ExecCmd :=
| ECString (s : string)
| ECArgv (l : list string)
| ECOptions (o : ExecOptions).

Record ExecArgs := {
  ea_cmd : ExecCmd;
  ea_env : option (list (string * string));
}.

Definition cmd_shape (c : Cmd) : CmdShape :=
  match c with
  | CmdString s => ShString s
  | CmdArray l => ShArray l
  | CmdFunction f => ShFunction (fn_source f)
  end.

Definition opts_shape (o : ExecOpts) : OptsShape :=
  {| sh_cmd := cmd_shape (cmd o); sh_dir := dir o; sh_env := env o;
     sh_silent := silent o; sh_logError := logError o |}.

(** [`${opts.cmd}`] *)
Definition cmd_text (c : CmdShape) : string :=
  match c with
  | ShString s => s
  | ShArray l => String.concat "," l
  | ShFunction src => src
  end.

Definition exec_cmd_text (c : ExecCmd) : string :=
  match c with
  | ECString s => s
  | ECArgv l => String.concat "," l
  | ECOptions _ => "[object Object]"
  end.

Definition json_field (key value : string) : string :=
  json_quote key +:+ ":" +:+ value.

Definition json_object (fields : list string) : string :=
  "{" +:+ String.concat "," fields +:+ "}".

Definition json_array (items : list string) : string :=
  "[" +:+ String.concat "," items +:+ "]".

Definition json_opt {A} (key : string) (print : A -> string) (o : option A)
    : list string :=
  match o with
  | Some a => [json_field key (print a)]
  | None => []
  end.

Definition json_bool (b : bool) : string := if b then "true" else "false".

(** [JSON.stringify(opts)]: properties that are absent or hold a function are
    left out. The keys are written in the order of the option type; an object
    literal that lists them in another order prints them in that order. *)
Definition json_stringify_opts (o : OptsShape) : string :=
  json_object
    (match sh_cmd o with
     | ShString s => [json_field "cmd" (json_quote s)]
     | ShArray l => [json_field "cmd" (json_array (json_quote <$> l))]
     | ShFunction _ => []
     end
     ++ json_opt "dir" json_quote (sh_dir o)
     ++ json_opt "env"
          (fun e => json_object ((fun kv => json_field kv.1 (json_quote kv.2)) <$> e))
          (sh_env o)
     ++ json_opt "silent" json_bool (sh_silent o)
     ++ json_opt "logError" json_bool (sh_logError o)).

(** [flag == false] on an optional boolean *)
Definition is_false (flag : option bool) : bool :=
  match flag with
  | Some false => true
  | _ => false
  end.

Definition chdir_error (d : string) (c : CmdShape) (err : Val) : Val :=
  VError "Error"
    ("Error changing working dir. Dir='" +:+ d +:+ "', cmd='" +:+ cmd_text c
       +:+ "', err=" +:+ to_string err).

Definition exec_error (o : OptsShape) (err : Val) : Val :=
  VError "Error"
    ("Error executing " +:+ json_stringify_opts o +:+ ", error "
       +:+ json_stringify err).

Definition run_error (c : ExecCmd) (code : Z) (errOutput : string) : Val :=
  VError "Error"
    ("error while running '" +:+ exec_cmd_text c +:+ "', status code '"
       +:+ pretty code +:+ "', error '" +:+ errOutput +:+ "'").

(** [{ cmd: opts }], for a bare string or array *)
Definition only_cmd (c : Cmd) : ExecOpts :=
  {| cmd := c; dir := None; env := None; silent := None; logError := None |}.

Section Exec.
Context (P : Platform).

(** [Deno.run(o)], awaited to the end of the process. *)
Definition Deno_run (o : RunOptions)
    : M (list Byte.byte * list Byte.byte * bool * Z) :=
  fun w =>
    let '(ds, e) := spawn P o w in
    let w1 := {| wd := wd w; dirs := ds; environ := environ w;
                 events := events w ++ [EvRun o] |} in
    match e with
    | SpawnFails err => (w1, Threw err)
    | Exits out err success code => (w1, Returned (out, err, success, code))
    | NeverExits => (w1, Hangs)
    end.

Definition _exec (opts : ExecArgs) : M string :=
  let o :=
    match ea_cmd opts with
    | ECString s =>
        {| ro_cmd := split_on " " s; ro_cwd := None; ro_env := None;
           ro_stdout := None; ro_stderr := None |}
    | ECArgv l =>
        {| ro_cmd := l; ro_cwd := None; ro_env := None;
           ro_stdout := None; ro_stderr := None |}
    | ECOptions eo =>
        {| ro_cmd := eo_cmd eo; ro_cwd := eo_cwd eo; ro_env := eo_env eo;
           ro_stdout := None; ro_stderr := None |}
    end in
  let o :=
    {| ro_cmd := ro_cmd o; ro_cwd := ro_cwd o; ro_env := ea_env opts;
       ro_stdout := Some "piped"; ro_stderr := Some "piped" |} in
  log "exec" TRACE ("cmd=" +:+ String.concat "," (ro_cmd o)) [];;
  '(stdOut, stdErr, success, code) ← Deno_run o;
  let output := decode P stdOut in
  if negb success then
    let errOutput := decode P stdErr in
    throw (run_error (ea_cmd opts) code errOutput)
  else mret output.

(** The loop over a command array; [out] is the array it pushes to. *)
Fixpoint exec_each (cmds : list string) (out : list string) : M (list string) :=
  match cmds with
  | [] => mret out
  | c :: rest =>
      o ← _exec {| ea_cmd := ECString c; ea_env := None |};
      exec_each rest (out ++ [o])
  end.

Definition exec (input : ExecInput) : M string :=
  let opts :=
    match input with
    | InString s => only_cmd (CmdString s)
    | InArray l => only_cmd (CmdArray l)
    | InOpts o => o
    end in
  cwdOrginal ← Deno_cwd;
  when_ (truthy_str (dir opts))
    (try_catch (Deno_chdir (default "" (dir opts)))
       (fun err =>
          throw (chdir_error (default "" (dir opts)) (cmd_shape (cmd opts)) err)));;
  try_finally
    (try_catch
       (match cmd opts with
        | CmdArray cmds =>
            log "exec" TRACE "exec (string[])" [LStrs cmds];;
            out ← exec_each cmds [];
            when_ (is_false (silent opts)) (console_log (String.concat nl out));;
            mret (String.concat nl out)
        | CmdString c =>
            log "exec" TRACE "exec (string)" [LStr c];;
            out ← _exec {| ea_cmd := ECString c; ea_env := None |};
            when_ (is_false (silent opts)) (console_log out);;
            mret out
        | CmdFunction f =>
            log "exec" TRACE "exec (function)" [LCmd (ShFunction (fn_source f))];;
            await_catch "cmd" (fn_call f);;
            mret ""
        end)
       (fun err =>
          when_ (negb (is_false (logError opts)))
            (log "exec" ERROR "error while executing"
               [LOpts (opts_shape opts); LVal err]);;
          throw (exec_error (opts_shape opts) err)))
    (when_ (truthy_str (dir opts)) (Deno_chdir cwdOrginal)).

End Exec.

(** ** The runner *)

(** [TaskContext]: the arguments, and the name of the logger. *)
Record TaskContext := {
  ctx_args : list (string * Val);
  ctx_log : string;
}.

(** A task: its source text (what [toString] shows) and what a call does.
    A task without parameters ignores the context. *)
Record Task := {
  task_source : string;
  task_call : TaskContext -> Call;
}.

(** [NamedTasks]: the own properties of the object. What it answers for
    besides them is [Object_prototype], below. *)
Abbreviation NamedTasks := (gmap string Task).

(** What [parse(Deno.args)] gives: the positional arguments ([_]) and the
    flags. *)
Record TaskArgs := {
  positional : list string;
  flags : list (string * Val);
}.

Record Meta := { meta_url : string }.

Record RunOpts := {
  r_dir : option string;
  r_default : option string;
  r_logLevel : option string;
  r_tasks : NamedTasks;
  r_meta : option Meta;
}.

Definition truthy (v : Val) : bool :=
  match v with
  | VUndefined | VNull => false
  | VBool b => b
  | VNum n => negb (n =? 0)%Z
  | VStr s => negb (String.eqb s "")
  | VError _ _ => true
  end.

(** [taskArgs[name]], as a condition *)
Definition flag_set (name : string) (fl : list (string * Val)) : bool :=
  match list_find (fun kv => kv.1 = name) fl with
  | Some (_, kv) => truthy kv.2
  | None => false
  end.

(** *** util.ts *)

Module Util.

Fixpoint rightPad_loop (fuel : nat) (s padChar : string) (size : nat) : string :=
  match fuel with
  | O => s
  | S n =>
      if Nat.ltb (String.length s) size then rightPad_loop n (s +:+ padChar) padChar size
      else s
  end.

(** The loop adds one [padChar] at a time; with a [padChar] that is not
    empty, [size] rounds are enough. *)
Definition rightPad (s : string) (size : nat) (padChar : string) : string :=
  rightPad_loop size s padChar size.

Definition is_space (c : ascii) : bool :=
  let n := N_of_ascii c in
  ((9 <=? n) && (n <=? 13) || (n =? 32))%N.

Fixpoint trim_start (s : string) : string :=
  match s with
  | String c rest => if is_space c then trim_start rest else s
  | EmptyString => ""
  end.

(** [s.trim()], for the white space of ASCII *)
Definition trim (s : string) : string :=
  String.rev (trim_start (String.rev (trim_start s))).

Definition ends_with (suffix s : string) : bool :=
  String.prefix (String.rev suffix) (String.rev s).

Definition drop_last_cr (s : string) : string :=
  if ends_with (String (ascii_of_N 13) "") s
  then String.substring 0 (String.length s - 1)%nat s else s.

(** [s.split(/\r?\n/)] *)
Definition split_lines (s : string) : list string :=
  match reverse (split_on (ascii_of_N 10) s) with
  | [] => []
  | last :: before => reverse (last :: (drop_last_cr <$> before))
  end.

Definition is_comment_delim (c : ascii) : bool :=
  let n := N_of_ascii c in
  ((n =? 39) || (n =? 34) || (n =? 96))%N.

(** The inner loop: the first line from [startIdx] on that ends with the
    delimiter; [taken] are the lines from [startIdx] up to it. *)
Fixpoint docs_until (startChar : ascii) (taken lines : list string)
    : option string :=
  match lines with
  | [] => None
  | l :: rest =>
      let line := trim l in
      if ends_with (String startChar ";") line
         || ends_with (String startChar "") line
      then
        let docs := trim (String.concat nl (taken ++ [l])) in
        let docs :=
          if ends_with ";" docs
          then String.substring 0 (String.length docs - 1)%nat docs else docs in
        Some (String.substring 1 (String.length docs - 2)%nat docs)
      else docs_until startChar (taken ++ [l]) rest
  end.

(** The outer loop, over the first [limit] lines. *)
Fixpoint docs_scan (limit : nat) (lines : list string) : option string :=
  match limit, lines with
  | S n, l :: rest =>
      match trim l with
      | String startChar _ =>
          if is_comment_delim startChar then docs_until startChar [] lines
          else docs_scan n rest
      | EmptyString => docs_scan n rest
      end
  | _, _ => None
  end.

Definition extractFunctionDocs (source : string) : option string :=
  docs_scan 4 (split_lines source).

(** The lines [printTasks] pushes, from the source text of each task. *)
Definition printTasks (tasks : gmap string string) : list string :=
  (fun key =>
     let docs := default "" (tasks !! key ≫= extractFunctionDocs) in
     let name :=
       if String.prefix "task_" key then String.substring 5 (String.length key) key
       else key in
     "     " +:+ rightPad name 25 " " +:+ " : " +:+ docs)
  <$> merge_sort (fun a b => String.leb a b) (map_to_list tasks).*1.

End Util.

Section Runner.
Context (P : Platform).

(** [Deno.env.get(name)] *)
Definition Deno_env_get (name : string) : M (option string) :=
  fun w =>
    (w, Returned (snd <$> (snd <$> list_find (fun kv => kv.1 = name) (environ w)))).

(** [await Deno.remove(path, { recursive: true })] *)
Definition Deno_remove (path : string) : M unit :=
  fun w =>
    let '(ds, r) := remove P path w in
    let w1 := {| wd := wd w; dirs := ds; environ := environ w;
                 events := events w |} in
    match r with
    | Some err => (w1, Threw err)
    | None => (w1, Returned tt)
    end.

Definition undefined_or (o : option string) : string := default "undefined" o.

Definition cache_clear_source : string :=
  "async function(ctxt) {" +:+ nl
  +:+ "            'Clear the deno script cache in $HOME/.cache/deno'" +:+ nl.

Definition help_source : string :=
  "async function(ctxt) {" +:+ nl
  +:+ "            'Print this help'" +:+ nl.

Definition builtin_sources : gmap string string :=
  {[ "_cache_clear" := cache_clear_source; "_help" := help_source ]}.

Definition newBuiltinsTasks (namedTasks : NamedTasks) (opts : RunOpts)
    : NamedTasks :=
  {[ "_cache_clear" :=
       {| task_source := cache_clear_source;
          task_call := fun ctxt =>
            async (
              home ← Deno_env_get "HOME";
              let cacheDir := undefined_or home +:+ "/.cache/deno/" in
              log (ctx_log ctxt) INFO
                ("Deleting cache dir: '" +:+ cacheDir +:+ "'") [];;
              Deno_remove cacheDir) |};
     "_help" :=
       {| task_source := help_source;
          task_call := fun ctxt =>
            async (
              let lines : list string :=
                (["Help:"; "  User Tasks:"]
                 ++ Util.printTasks (task_source <$> namedTasks)
                 ++ ["  Builtin Tasks:"]
                 ++ Util.printTasks builtin_sources
                 ++ ["  User supplied options:";
                     "      defaultTask: " +:+ undefined_or (r_default opts);
                     "      dir: " +:+ undefined_or (r_dir opts);
                     "      logLevel: " +:+ undefined_or (r_logLevel opts)])%list in
              console_log (String.concat nl lines)) |} ]}.

Definition setWorkingDir (opts : RunOpts) : M unit :=
  match r_meta opts with
  | None =>
      throw (VStr ("No 'meta' (import.meta.url) set on RunArgs. THis needs "
                   +:+ "to be set to calculate the basedir to use for all "
                   +:+ "path related operations"))
  | Some meta =>
      if negb (truthy_str (r_dir opts)) then mret tt
      else
        let runDir := default "" (r_dir opts) in
        match url_pathname P (meta_url meta) with
        | None => throw (VError "TypeError" "Invalid URL")
        | Some pathname =>
            let entryScript :=
              if is_windows P then substring_from_1 pathname else pathname in
            log "run" TRACE "entryScript" [LStr entryScript];;
            let entryScriptDir := path_dirname P entryScript in
            log "run" TRACE "entryScriptDir" [LStr entryScriptDir];;
            let baseDir := path_join P entryScriptDir runDir in
            log "run" TRACE "baseDir" [LStr baseDir];;
            Deno_chdir baseDir
        end
  end.

End Runner.

(** The name looked up: [tasksToRun[i].replace('-', '_')] *)
Definition lookup_name (requested : string) : string :=
  replace_first "-" "_" requested.

(** How many dashes a requested name has. *)
Fixpoint dashes (s : string) : nat :=
  match s with
  | EmptyString => 0
  | String c rest => (if Ascii.eqb c "-" then 1 else 0) + dashes rest
  end.

(** A registry is a plain object, as an object literal gives: besides its
    own properties it answers for the names of the members it inherits from
    [Object.prototype], and each of them is a function. [runTasks] calls
    what it finds as [task(taskContext)], without a receiver, and none of
    them gives a promise then: [toString] gives the text for [undefined],
    [constructor] is [Object] and hands the context back (an object, which
    the values here do not have; it stands as the text it prints as, and
    that it has no [catch] is all that is asked of it), and the others
    throw for want of a receiver. The wording of their errors is the
    engine's, V8's here. Deno deletes the accessor [__proto__] from
    [Object.prototype], so that name is answered by nothing. *)
Definition native (name : string) (call : Call) : Task :=
  {| task_source := "function " +:+ name +:+ "() { [native code] }";
     task_call := fun _ => call |}.

Definition no_receiver (name : string) : Task :=
  native name
    (fun w => (w, ThrowsSync (VError "TypeError"
                                "Cannot convert undefined or null to object"))).

Definition Object_prototype (name : string) : option Task :=
  if String.eqb name "toString"
  then Some (native name (fun w => (w, ReturnsValue (VStr "[object Undefined]"))))
  else if String.eqb name "constructor"
  then Some (native "Object" (fun w => (w, ReturnsValue (VStr "[object Object]"))))
  else if String.eqb name "toLocaleString"
  then Some (native name
               (fun w => (w, ThrowsSync
                               (VError "TypeError"
                                  "Object.prototype.toLocaleString called on null or undefined"))))
  else if String.eqb name "valueOf" || String.eqb name "hasOwnProperty"
          || String.eqb name "isPrototypeOf"
          || String.eqb name "propertyIsEnumerable"
          || String.eqb name "__defineGetter__"
          || String.eqb name "__defineSetter__"
          || String.eqb name "__lookupGetter__"
          || String.eqb name "__lookupSetter__"
  then Some (no_receiver name)
  else None.

(** [tasks[name]]: the property of its own, or else the inherited one. *)
Definition get_task (tasks : NamedTasks) (name : string) : option Task :=
  match tasks !! name with
  | Some task => Some task
  | None => Object_prototype name
  end.

(** The three lookups of [runTasks]. What a lookup finds is a function,
    and a function is truthy: [!task] says that the name is answered
    neither by the registry itself nor by [Object.prototype]. *)
Definition find_task (userTasks builtinsTasks : NamedTasks) (taskName : string)
    : option Task :=
  let task := get_task userTasks taskName in
  let task := if negb (bool_decide (is_Some task))
              then get_task userTasks ("task_" +:+ taskName) else task in
  let task := if negb (bool_decide (is_Some task))
              then get_task builtinsTasks taskName else task in
  task.

Definition not_found_message (taskName : string) : string :=
  "could not find task function '" +:+ taskName
    +:+ "'. Run '_help' to show available tasks".

Definition threw_message (taskName : string) : string :=
  "Task '" +:+ taskName +:+ "' threw an error".

(** The string that is thrown; the source leaves out the closing quote. *)
Definition task_failure (taskName : string) : Val :=
  VStr ("Task '" +:+ taskName +:+ " threw an error").

(** The [try] statement around one task. *)
Definition run_task (taskName : string) (task : Task)
    (taskArgs : list (string * Val)) : M unit :=
  log "run" DEBUG ("running task: '" +:+ taskName +:+ "'") [];;
  try_catch
    (let taskContext :=
       {| ctx_args := taskArgs; ctx_log := "task." +:+ taskName |} in
     await_catch "task" (task_call task taskContext);;
     mret tt)
    (fun err =>
       log "run" ERROR (threw_message taskName) [LVal err];;
       throw (task_failure taskName)).

Fixpoint runTasks (userTasks builtinsTasks : NamedTasks)
    (tasksToRun : list string) (taskArgs : list (string * Val)) : M unit :=
  match tasksToRun with
  | [] => mret tt
  | requested :: rest =>
      let taskName := lookup_name requested in
      match find_task userTasks builtinsTasks taskName with
      | None => log "run" ERROR (not_found_message taskName) []
      | Some task =>
          run_task taskName task taskArgs;;
          runTasks userTasks builtinsTasks rest taskArgs
      end
  end.

Section Run.
Context (P : Platform).

Definition run (opts : RunOpts) (cli : TaskArgs) : M unit :=
  let defaultTaskName :=
    if truthy_str (r_default opts) then default "" (r_default opts)
    else "_help" in
  let taskArgs := flags cli in
  when_ (negb (flag_set "log" taskArgs) && truthy_str (r_logLevel opts))
    (set_log_level (default "" (r_logLevel opts)));;
  let tasks :=
    match positional cli with
    | [] => [defaultTaskName]
    | _ => positional cli
    end in
  let tasks := if flag_set "help" taskArgs then ["_help"] else tasks in
  initCwd ← Deno_cwd;
  setWorkingDir P opts;;
  let builtinTasks := newBuiltinsTasks P (r_tasks opts) opts in
  try_finally
    (runTasks (r_tasks opts) builtinTasks tasks taskArgs)
    (Deno_chdir initCwd).

End Run.

(** ** Names for the states a call goes through *)

(** What [_exec] hands to [Deno.run] for a command string. *)
Definition piped (c : string) : RunOptions :=
  {| ro_cmd := split_on " " c; ro_cwd := None; ro_env := None;
     ro_stdout := Some "piped"; ro_stderr := Some "piped" |}.

(** The state after the [dir] of a call has been entered. *)
Definition entered (o : ExecOpts) (w : World) : World :=
  if truthy_str (dir o)
  then {| wd := chdir_target (wd w) (default "" (dir o)); dirs := dirs w;
          environ := environ w; events := events w |}
  else w.

(** The state in which [_exec] starts the process of the command string
    [c], called in [w]. *)
Definition at_spawn (c : string) (w : World) : World :=
  emit (EvLog "exec" TRACE ("cmd=" +:+ String.concat "," (split_on " " c)) []) w.

(** The state once the process of [c], started from [w], has ended and
    left the directories [ds]. *)
Definition ran (c : string) (ds : list string) (w : World) : World :=
  {| wd := wd w; dirs := ds; environ := environ w;
     events := events (at_spawn c w) ++ [EvRun (piped c)] |}.

(** ** What reaches [Deno.run] *)

(** A call of [Deno.run] that was given no [env]; other events pass. *)
Definition without_env (e : Event) : Prop :=
  match e with
  | EvRun o => ro_env o = None
  | _ => True
  end.

(** [w'] is [w] with more events, none of them a [Deno.run] with [env]. *)
Definition adds_without_env (w w' : World) : Prop :=
  exists evs, events w' = (events w ++ evs)%list /\ Forall without_env evs.

(** A piece of code that only adds such events. *)
Definition env_free {A} (m : M A) : Prop :=
  forall w w' r, m w = (w', r) -> adds_without_env w w'.

(** ** A concrete process, for the examples *)

Module Demo.

Definition bytes (s : string) : list Byte.byte := String.list_byte_of_string s.

(** The lookup a child process makes for a variable: what [Deno.run] was
    given in [env] first, the environment of the parent after it. *)
Definition child_env (o : RunOptions) (w : World) : list (string * string) :=
  (default [] (ro_env o) ++ environ w)%list.

Definition getenv (name : string) (e : list (string * string)) : option string :=
  snd <$> (snd <$> list_find (fun kv => kv.1 = name) e).

(** [echo] prints its arguments, [printenv NAME] prints a variable or exits
    with 1, [ls] of a path fails with 2 and a complaint on stderr,
    [rmdir-work] removes the directory [work]; anything else is not found. *)
Definition platform : Platform := {|
  spawn := fun o w =>
    match ro_cmd o with
    | "echo" :: rest =>
        (dirs w, Exits (bytes (String.concat " " rest +:+ nl)) [] true 0)
    | ["printenv"; name] =>
        match getenv name (child_env o w) with
        | Some v => (dirs w, Exits (bytes (v +:+ nl)) [] true 0)
        | None => (dirs w, Exits [] [] false 1)
        end
    | ["ls"; path] =>
        (dirs w,
         Exits [] (bytes ("ls: cannot access '" +:+ path
                            +:+ "': No such file or directory" +:+ nl))
           false 2)
    | ["rmdir-work"] =>
        (filter (fun d => d ≠ "work") (dirs w), Exits [] [] true 0)
    | _ => (dirs w, SpawnFails (VError "NotFound" "No such file or directory"))
    end;
  decode := String.string_of_list_byte;
  remove := fun path w => (dirs w, Some (not_found "remove"));
  url_pathname := fun u =>
    if String.prefix "file://" u
    then Some (String.substring 7 (String.length u) u) else None;
  path_dirname := fun p => "/work";
  path_join := fun a b => a +:+ "/" +:+ b;
  is_windows := false;
|}.

Definition world : World :=
  {| wd := "work"; dirs := ["work"; "work/build"; "tmp"];
     environ := [("HOME", "/home/dev")]; events := [] |}.

(** [async () => { console.log(text) }] *)
Definition say (text : string) : Task :=
  {| task_source := "async () => { console.log('" +:+ text +:+ "') }";
     task_call := fun _ => async (console_log text) |}.

(** [async () => { throw err }] *)
Definition failing (err : Val) : Task :=
  {| task_source := "async () => { throw err }";
     task_call := fun _ => async (throw (A := unit) err) |}.

(** [() => { console.log(text) }]: not [async], returns [undefined]. *)
Definition plain (text : string) : Task :=
  {| task_source := "() => { console.log('" +:+ text +:+ "') }";
     task_call := fun _ w => (emit (EvConsole text) w, ReturnsValue VUndefined) |}.

(** [async () => { Deno.chdir('/tmp') }] *)
Definition wanders : Task :=
  {| task_source := "async () => { Deno.chdir('/tmp') }";
     task_call := fun _ => async (Deno_chdir "/tmp") |}.

Definition tasks : NamedTasks :=
  {[ "task_build" := say "building"; "my_long_task" := say "long";
     "lint" := plain "linting"; "deploy" := failing (VStr "no credentials");
     "roam" := wanders ]}.

Definition opts : RunOpts :=
  {| r_dir := Some "build"; r_default := None; r_logLevel := None;
     r_tasks := tasks; r_meta := Some {| meta_url := "file:///work/make.ts" |} |}.

Definition cli (names : list string) : TaskArgs :=
  {| positional := names; flags := [] |}.

Definition plain_fn : JsFunction :=
  {| fn_source := "() => {}";
     fn_call := fun w => (w, ReturnsValue VUndefined) |}.


(** [{ cmd: ['echo a', 'ls /nowhere'], dir: 'build' }] *)
Definition in_build : ExecOpts :=
  {| cmd := CmdArray ["echo a"; "ls /nowhere"]; dir := Some "build";
     env := None; silent := None; logError := None |}.


(** [{ cmd: () => {}, dir: 'build', logError: false }] *)
Definition plain_in_build : ExecOpts :=
  {| cmd := CmdFunction plain_fn; dir := Some "build"; env := None;
     silent := None; logError := Some false |}.

(** [{ cmd: 'printenv GREETING', env: { GREETING: 'hello' } }] *)
Definition greeting : ExecOpts :=
  {| cmd := CmdString "printenv GREETING"; dir := None;
     env := Some [("GREETING", "hello")]; silent := None; logError := None |}.


End Demo.

(** ** hash.ts *)

Module Hash.

(** [x | 0]: the 32-bit signed integer of a number. *)
Definition to_int32 (x : Z) : Z := (x + 2 ^ 31) mod 2 ^ 32 - 2 ^ 31.

(** One round of the loop: [hash = (hash << 5) - hash + c; hash |= 0].
    The shift works on 32 bits; the subtraction and the addition are exact
    (the numbers stay far below 2^53). *)
Definition step (hash c : Z) : Z :=
  to_int32 (to_int32 (Z.shiftl hash 5) - hash + c).

(** [hashCode(s)], on the code units [s.charCodeAt(i)] of the string. *)
Definition hashCode (s : list Z) : Z := fold_left step s 0.

(** The code units of a string of one-byte characters. *)
Definition code_units (s : string) : list Z :=
  (fun c => Z.of_N (N_of_ascii c)) <$> String.list_ascii_of_string s.

End Hash.

(** How often a character stands in a string. *)
Fixpoint occurrences (c : ascii) (s : string) : nat :=
  match s with
  | EmptyString => 0
  | String c' rest => (if Ascii.eqb c' c then 1 else 0) + occurrences c rest
  end.

(** ** The parts of [exec] *)

Section ExecParts.
Context (P : Platform).

(** The [try] block of [exec]. *)
Definition exec_try (opts : ExecOpts) : M string :=
  match cmd opts with
  | CmdArray cmds =>
      log "exec" TRACE "exec (string[])" [LStrs cmds];;
      out ← exec_each P cmds [];
      when_ (is_false (silent opts)) (console_log (String.concat nl out));;
      mret (String.concat nl out)
  | CmdString c =>
      log "exec" TRACE "exec (string)" [LStr c];;
      out ← _exec P {| ea_cmd := ECString c; ea_env := None |};
      when_ (is_false (silent opts)) (console_log out);;
      mret out
  | CmdFunction f =>
      log "exec" TRACE "exec (function)" [LCmd (ShFunction (fn_source f))];;
      await_catch "cmd" (fn_call f);;
      mret ""
  end.

(** Its [catch] block. *)
Definition exec_catch (opts : ExecOpts) (err : Val) : M string :=
  when_ (negb (is_false (logError opts)))
    (log "exec" ERROR "error while executing"
       [LOpts (opts_shape opts); LVal err]);;
  throw (exec_error (opts_shape opts) err).

End ExecParts.

(** The state after the [catch] block of [exec] has logged [err], or has
    not, with [logError: false]. *)
Definition exec_logged (opts : ExecOpts) (err : Val) (w : World) : World :=
  if is_false (logError opts) then w
  else emit (EvLog "exec" ERROR "error while executing"
               [LOpts (opts_shape opts); LVal err]) w.

(** The [finally] block of [exec], on the way out with [c]: back to
    [original] when there was a [dir], which can fail. *)
Definition exec_leave {A} (opts : ExecOpts) (original : string) (w : World)
    (c : Completion A) : World * Completion A :=
  if truthy_str (dir opts) then
    if dir_exists original w
    then ({| wd := original; dirs := dirs w; environ := environ w;
             events := events w |}, c)
    else (w, Threw (not_found ("chdir '/" +:+ original +:+ "'")))
  else (w, c).

(** The command strings of a call, in the order [exec] runs them; a
    function has none. *)
Definition commands (c : Cmd) : list string :=
  match c with
  | CmdString s => [s]
  | CmdArray l => l
  | CmdFunction _ => []
  end.

(** The process that [_exec], called in [w], starts for the command string
    [c] exits with success. *)
Definition ends_well (P : Platform) (c : string) (w : World) : bool :=
  match spawn P (piped c) (at_spawn c w) with
  | (_, Exits _ _ true _) => true
  | _ => false
  end.

(** The state that call of [_exec] leaves, however the process ended. *)
Definition after (P : Platform) (c : string) (w : World) : World :=
  ran c (spawn P (piped c) (at_spawn c w)).1 w.

(** [all_well P cmds w w']: run by [_exec] one after the other from [w],
    each of [cmds] exits with success; [w'] is the state after the last. *)
Inductive all_well (P : Platform) : list string -> World -> World -> Prop :=
| well_none (w : World) : all_well P [] w w
| well_next (c : string) (rest : list string) (w w' : World) :
    ends_well P c w = true ->
    all_well P rest (after P c w) w' ->
    all_well P (c :: rest) w w'.

(** The state in which the [try] block of [exec] gets to its first command:
    the [dir] has been entered and the call has been traced. *)
Definition try_start (o : ExecOpts) (w : World) : World :=
  match cmd o with
  | CmdArray cmds =>
      emit (EvLog "exec" TRACE "exec (string[])" [LStrs cmds]) (entered o w)
  | CmdString c =>
      emit (EvLog "exec" TRACE "exec (string)" [LStr c]) (entered o w)
  | CmdFunction f =>
      emit (EvLog "exec" TRACE "exec (function)"
              [LCmd (ShFunction (fn_source f))]) (entered o w)
  end.


(** ** The rest of the runner *)

(** [taskArgs[name]] *)
Definition flag_value (name : string) (fl : list (string * Val)) : Val :=
  match list_find (fun kv => kv.1 = name) fl with
  | Some (_, kv) => kv.2
  | None => VUndefined
  end.

(** The level names [init] goes through, in its order. *)
Definition level_flags : list string :=
  ["error"; "warn"; "info"; "debug"; "trace"].

(** The loop of [init] over the level names. *)
Fixpoint init_levels (levels : list string) (taskArgs : list (string * Val))
    : M unit :=
  match levels with
  | [] => mret tt
  | level :: rest =>
      when_ (flag_set level taskArgs) (set_log_level level);;
      init_levels rest taskArgs
  end.

(** [init()]: the level flags first, [--log] last. [taskArgs.log] is typed
    as a string; another value is taken by its text. *)
Definition init (taskArgs : list (string * Val)) : M unit :=
  init_levels level_flags taskArgs;;
  when_ (flag_set "log" taskArgs)
    (set_log_level (to_string (flag_value "log" taskArgs))).

(** The levels assigned to [loggerFactory.level], in the order they were. *)
Definition level_assignments (w : World) : list string :=
  omap (fun e => match e with EvLogLevel l => Some l | _ => None end) (events w).

(** The text the help task prints. *)
Definition help_text (opts : RunOpts) : string :=
  String.concat nl
    (["Help:"; "  User Tasks:"]
     ++ Util.printTasks (task_source <$> r_tasks opts)
     ++ ["  Builtin Tasks:"]
     ++ Util.printTasks builtin_sources
     ++ ["  User supplied options:";
         "      defaultTask: " +:+ undefined_or (r_default opts);
         "      dir: " +:+ undefined_or (r_dir opts);
         "      logLevel: " +:+ undefined_or (r_logLevel opts)])%list.

(** ** util.ts *)

(** [k] copies of [pad], one after the other *)
Fixpoint copies (k : nat) (pad : string) : string :=
  match k with
  | O => ""
  | S k' => pad +:+ copies k' pad
  end.

(** The line opens a doc string: trimmed, it starts with one of the three
    quote characters. *)
Definition opens_docs (l : string) : bool :=
  match Util.trim l with
  | String c _ => Util.is_comment_delim c
  | EmptyString => false
  end.

(** The name [printTasks] shows for a key *)
Definition shown_name (key : string) : string :=
  if String.prefix "task_" key
  then String.substring 5 (String.length key) key else key.

(** The line [printTasks] pushes for a key and the source text of its task *)
Definition task_line (key source : string) : string :=
  "     " +:+ Util.rightPad (shown_name key) 25 " " +:+ " : "
  +:+ default "" (Util.extractFunctionDocs source).

(** ** logger.ts *)

Module Logger.

(** What the field [_level] can hold. The type says [LogLevel]; [parseLevel]
    reads the table of names with the name it is given, and for the name
    [constructor] the table answers with the property every object inherits,
    which is no number. *)
Inductive LevelVal := Lvl (l : LogLevel) | NotANumber.

(** [Level = LogLevel | string] *)
Inductive Level := ByName (levelName : string) | ByNumber (l : LogLevel).

Definition level_number (l : LogLevel) : Z :=
  match l with
  | TRACE => 1 | DEBUG => 2 | INFO => 3 | WARN => 4
  | ERROR => 5 | FATAL => 6 | OFF => 7
  end.

Definition lower (c : ascii) : ascii :=
  let n := N_of_ascii c in
  if ((65 <=? n) && (n <=? 90))%N then ascii_of_N (n + 32) else c.

(** [s.toLowerCase()], for the letters of ASCII *)
Fixpoint toLowerCase (s : string) : string :=
  match s with
  | EmptyString => ""
  | String c rest => String (lower c) (toLowerCase rest)
  end.

(** [nameToLevel[name]] *)
Definition nameToLevel (name : string) : option LevelVal :=
  if String.eqb name "trace" then Some (Lvl TRACE)
  else if String.eqb name "debug" then Some (Lvl DEBUG)
  else if String.eqb name "info" then Some (Lvl INFO)
  else if String.eqb name "warn" then Some (Lvl WARN)
  else if String.eqb name "error" then Some (Lvl ERROR)
  else if String.eqb name "fatal" then Some (Lvl FATAL)
  else if String.eqb name "off" then Some (Lvl OFF)
  else if String.eqb name "constructor" then Some NotANumber
  else None.

Definition levelToName (l : LogLevel) : string :=
  match l with
  | TRACE => "TRACE" | DEBUG => "DEBUG" | WARN => " WARN" | INFO => " INFO"
  | ERROR => "ERROR" | FATAL => "FATAL" | OFF => "  OFF"
  end.

Definition parseLevel (levelName : string) (defaultLevel : LogLevel) : LevelVal :=
  default (Lvl defaultLevel) (nameToLevel (toLowerCase levelName)).

(** An object of class [LoggerImpl]. Loggers live in a heap and are named by
    their place in it; [parent] is such a place. The one appender there is
    is the console appender of the factory: [appender] says whether the
    logger holds it. *)
Record LoggerImpl := {
  name : string;
  _level : option LevelVal;
  parent : option nat;
  appender : bool;
}.

Abbreviation Heap := (list LoggerImpl).

(** [set level(level)] *)
Definition level_value (level : Level) : LevelVal :=
  match level with
  | ByName levelName => parseLevel levelName INFO
  | ByNumber l => Lvl l
  end.

Definition LoggerImpl_set_level (level : Level) (this : nat) (h : Heap) : Heap :=
  alter (fun l => {| name := name l; _level := Some (level_value level);
                     parent := parent l; appender := appender l |}) this h.

(** [get level()]. A parent is an older object, so the chain above the
    logger at place [n] has at most [n] links: that is the fuel. *)
Fixpoint level_from (fuel : nat) (h : Heap) (this : nat) : LevelVal :=
  match h !! this with
  | None => Lvl OFF
  | Some l =>
      match _level l with
      | Some v => v
      | None =>
          match parent l with
          | None => Lvl OFF
          | Some p =>
              match fuel with
              | O => Lvl OFF
              | S n => level_from n h p
              end
          end
      end
  end.

Definition level (h : Heap) (this : nat) : LevelVal := level_from this h this.

(** [this.level <= level]: what is no number compares as false. *)
Definition isLevelEnabled (h : Heap) (this : nat) (lv : LogLevel) : bool :=
  match level h this with
  | Lvl l => (level_number l <=? level_number lv)%Z
  | NotANumber => false
  end.

Definition isTraceEnabled (h : Heap) (this : nat) : bool := isLevelEnabled h this TRACE.
Definition isDebugEnabled (h : Heap) (this : nat) : bool := isLevelEnabled h this DEBUG.
Definition isInfoEnabled (h : Heap) (this : nat) : bool := isLevelEnabled h this INFO.
Definition isWarnEnabled (h : Heap) (this : nat) : bool := isLevelEnabled h this WARN.
Definition isErrorEnabled (h : Heap) (this : nat) : bool := isLevelEnabled h this ERROR.
Definition isFatalEnabled (h : Heap) (this : nat) : bool := isLevelEnabled h this FATAL.
Definition isOff (h : Heap) (this : nat) : bool := isLevelEnabled h this OFF.

(** [return !this.isOff]: the method is not called, and a function is
    truthy. *)
Definition isEnabled (h : Heap) (this : nat) : bool :=
  let isOff_is_truthy := true in negb isOff_is_truthy.

(** [getLogger(childName, relative)]: the new object and its place *)
Definition LoggerImpl_getLogger (childName : string) (relative : option bool)
    (this : nat) (h : Heap) : Heap * nat :=
  let this_name := default "undefined" (name <$> h !! this) in
  ((h ++ [ {| name := if bool_decide (relative = Some false) then childName
                      else this_name +:+ "." +:+ childName;
              _level := None; parent := Some this; appender := false |} ])%list,
   length h).

Section Console.
Context {A : Type}.

(** What a call hands on after the message: [log] takes the further
    arguments as they are, the level methods pass theirs as one array. *)
Inductive Passed := Value (a : A) | Rest (l : list A).

Inductive Stream := Out | Err.

(** A call of [console.log] ([Out]) or [console.error] ([Err]) *)
Record ConsoleCall := {
  stream : Stream;
  line : string;
  further : list Passed;
}.

Record LogEvent := {
  logName : string;
  ev_level : LogLevel;
  msg : string;
  args : list Passed;
}.

(** [SimpleLogFormatter.format] *)
Definition format (event : LogEvent) : string :=
  "[" +:+ levelToName (ev_level event) +:+ "] " +:+ logName event +:+ " - "
  +:+ msg event.

(** [ConsoleLogAppender.append] *)
Definition append (event : LogEvent) (console : list ConsoleCall)
    : list ConsoleCall :=
  let line := format event in
  if (level_number (ev_level event) <? level_number ERROR)%Z then
    if Nat.ltb 0 (length (args event))
    then (console ++ [ {| stream := Out; line := line; further := args event |} ])%list
    else (console ++ [ {| stream := Out; line := line; further := [] |} ])%list
  else (console ++ [ {| stream := Err; line := line; further := args event |} ])%list.

(** [logEvent] *)
Fixpoint logEvent_from (fuel : nat) (h : Heap) (this : nat) (event : LogEvent)
    (console : list ConsoleCall) : list ConsoleCall :=
  match h !! this with
  | None => console
  | Some l =>
      if appender l then append event console
      else
        match parent l with
        | None => console
        | Some p =>
            match fuel with
            | O => console
            | S n => logEvent_from n h p event console
            end
        end
  end.

Definition logEvent (h : Heap) (this : nat) (event : LogEvent)
    (console : list ConsoleCall) : list ConsoleCall :=
  logEvent_from this h this event console.

(** [log(level, msg, ...args)] *)
Definition log (h : Heap) (this : nat) (lv : LogLevel) (msg : string)
    (args : list Passed) (console : list ConsoleCall) : list ConsoleCall :=
  if isLevelEnabled h this lv then
    logEvent h this
      {| logName := default "undefined" (name <$> h !! this); msg := msg;
         args := args; ev_level := lv |} console
  else console.

Definition trace (h : Heap) (this : nat) (msg : string) (args : list A) :=
  log h this TRACE msg [Rest args].
Definition debug (h : Heap) (this : nat) (msg : string) (args : list A) :=
  log h this DEBUG msg [Rest args].
Definition info (h : Heap) (this : nat) (msg : string) (args : list A) :=
  log h this INFO msg [Rest args].
Definition warn (h : Heap) (this : nat) (msg : string) (args : list A) :=
  log h this WARN msg [Rest args].
Definition error (h : Heap) (this : nat) (msg : string) (args : list A) :=
  log h this ERROR msg [Rest args].
Definition fatal (h : Heap) (this : nat) (msg : string) (args : list A) :=
  log h this FATAL msg [Rest args].

End Console.

Arguments Passed : clear implicits.
Arguments ConsoleCall : clear implicits.
Arguments LogEvent : clear implicits.

(** *** LoggerFactory: the heap starts with its root logger at place 0. *)

Definition rootLogger : nat := 0.

Definition LoggerFactory_new : Heap :=
  [ {| name := "app"; _level := Some (Lvl INFO); parent := None;
       appender := true |} ].

(** [set level(level)]: [level || this.DEFAULT_LEVEL] *)
Definition LoggerFactory_set_level (level : option Level) (h : Heap) : Heap :=
  let given :=
    match level with
    | None | Some (ByName EmptyString) => ByNumber INFO
    | Some l => l
    end in
  LoggerImpl_set_level given rootLogger h.

Definition LoggerFactory_set_rootName (rootName : string) (h : Heap) : Heap :=
  alter (fun l => {| name := rootName; _level := _level l;
                     parent := parent l; appender := appender l |})
        rootLogger h.

Definition LoggerFactory_getLogger (childName : string) (relative : option bool)
    (h : Heap) : Heap * nat :=
  LoggerImpl_getLogger childName relative rootLogger h.

(** The exported [getLogger(name, relative)] *)
Definition getLogger (loggerName : string) (relative : option bool) (h : Heap)
    : Heap * nat :=
  let loggerName :=
    if Util.ends_with ".js" loggerName
    then String.substring 0 (String.length loggerName - 3)%nat loggerName
    else loggerName in
  LoggerFactory_getLogger loggerName relative h.

(** Parents are older objects. *)
Definition parents_older (h : Heap) : Prop :=
  forall (r p : nat) (l : LoggerImpl),
    h !! r = Some l -> parent l = Some p -> (p < r)%nat.

(** The heaps the factory makes: the root holds the appender, and every other
    logger has a parent. *)
Definition factory_heap (h : Heap) : Prop :=
  parents_older h
  /\ (exists root, h !! rootLogger = Some root /\ appender root = true)
  /\ (forall (r : nat) (l : LoggerImpl),
        h !! r = Some l -> r <> rootLogger -> is_Some (parent l)).

(** [takes_level_from h q p]: going up from [q], [p] is reached before any
    logger with a level of its own. *)
Inductive takes_level_from (h : Heap) : nat -> nat -> Prop :=
| takes_here (p : nat) (l : LoggerImpl) :
    h !! p = Some l -> takes_level_from h p p
| takes_above (q q' p : nat) (l : LoggerImpl) :
    h !! q = Some l -> q <> p -> _level l = None -> parent l = Some q' ->
    takes_level_from h q' p -> takes_level_from h q p.

End Logger.

Module DemoMore.


(** [{ cmd: async () => 42, silent: false }] *)
Definition quiet_work : ExecOpts :=
  {| cmd := CmdFunction
              {| fn_source := "async () => 42";
                 fn_call := fun w => (w, ReturnsPromise (Fulfilled (VNum 42))) |};
     dir := None; env := None; silent := Some false; logError := None |}.

(** [run({ tasks, meta: import.meta })] *)
Definition no_default : RunOpts :=
  {| r_dir := None; r_default := None; r_logLevel := None;
     r_tasks := Demo.tasks;
     r_meta := Some {| meta_url := "file:///work/make.ts" |} |}.

(** The factory's heap after [getLogger('exec')], [getLogger('run')] and a
    level of its own for the second: places 0, 1 and 2. *)
Definition loggers : Logger.Heap :=
  let h := Logger.LoggerFactory_new in
  let h := (Logger.getLogger "exec" None h).1 in
  let h := (Logger.getLogger "run" None h).1 in
  Logger.LoggerImpl_set_level (Logger.ByName "debug") 2 h.

End DemoMore.

(** * Properties *)

Ltac unfold_M :=
  unfold mbind, M_bind, bind, mret, M_ret, ret, throw, try_catch, try_finally,
    when_, log, console_log, set_log_level in *.

Lemma is_Some_bool {A} (o : option A) :
  bool_decide (is_Some o) = match o with Some _ => true | None => false end.
Proof.
  destruct o.
  - by rewrite bool_decide_eq_true_2.
  - rewrite bool_decide_eq_false_2; [done | apply is_Some_None].
Qed.

(** ** Dispatch *)

Section Dispatch.
Context (userTasks builtinsTasks : NamedTasks).
Implicit Types (requested taskName : string) (names : list string).
Implicit Types (taskArgs : list (string * Val)) (w : World).

(** The lookups, read as a chain of cases. *)
Lemma find_task_chain taskName :
  find_task userTasks builtinsTasks taskName =
    match get_task userTasks taskName with
    | Some t => Some t
    | None =>
        match get_task userTasks ("task_" +:+ taskName) with
        | Some t => Some t
        | None => get_task builtinsTasks taskName
        end
    end.
Proof.
  unfold find_task.
  destruct (get_task userTasks taskName) as [t|]; rewrite !is_Some_bool; simpl;
    [done|].
  by destruct (get_task userTasks ("task_" +:+ taskName)).
Qed.

(** No member of [Object.prototype] has a name that starts with [task_]. *)
Lemma no_inherited_task_ taskName :
  Object_prototype ("task_" +:+ taskName) = None.
Proof. reflexivity. Qed.

(** For a name that [Object.prototype] does not answer for, the lookups go
    by the keys of the two registries. *)
Lemma find_task_cases taskName :
  Object_prototype taskName = None ->
  find_task userTasks builtinsTasks taskName =
    match userTasks !! taskName with
    | Some t => Some t
    | None =>
        match userTasks !! ("task_" +:+ taskName) with
        | Some t => Some t
        | None => builtinsTasks !! taskName
        end
    end.
Proof.
  intros Hown. rewrite find_task_chain. unfold get_task.
  rewrite no_inherited_task_, Hown.
  destruct (userTasks !! taskName); [done|].
  destruct (userTasks !! ("task_" +:+ taskName)); [done|].
  by destruct (builtinsTasks !! taskName).
Qed.

(** A name that [Object.prototype] answers for and the user registry has no
    key for is found there, whatever else the registries hold. *)
Lemma find_task_inherited taskName task :
  userTasks !! taskName = None ->
  Object_prototype taskName = Some task ->
  find_task userTasks builtinsTasks taskName = Some task.
Proof.
  intros Hown Hinherited. rewrite find_task_chain. unfold get_task.
  by rewrite Hown, Hinherited.
Qed.

(** A batch whose names are all found and whose tasks all end well is run
    to its end, and the rest of the list goes on from there. *)
Lemma runTasks_app names rest taskArgs w w1 :
  Forall (fun requested =>
            is_Some (find_task userTasks builtinsTasks (lookup_name requested)))
    names ->
  runTasks userTasks builtinsTasks names taskArgs w = (w1, Returned tt) ->
  runTasks userTasks builtinsTasks (names ++ rest) taskArgs w
  = runTasks userTasks builtinsTasks rest taskArgs w1.
Proof.
  intros Hfound. revert w.
  induction Hfound as [|requested names [task Htask] _ IH]; intros w Hrun.
  - simpl in Hrun. unfold_M. by injection Hrun as ->.
  - simpl in *. rewrite Htask in *. unfold_M.
    destruct (run_task _ task taskArgs w) as [w' [[]| |]]; try discriminate.
    by apply IH.
Qed.

(** One task whose call throws or whose promise is rejected. *)
Lemma run_task_failure taskName task taskArgs w w2 inv err :
  task_call task {| ctx_args := taskArgs; ctx_log := "task." +:+ taskName |}
    (emit (EvLog "run" DEBUG ("running task: '" +:+ taskName +:+ "'") []) w)
  = (w2, inv) ->
  inv = ThrowsSync err \/ inv = ReturnsPromise (Rejected err) ->
  run_task taskName task taskArgs w
  = (emit (EvLog "run" ERROR (threw_message taskName) [LVal err]) w2,
     Threw (task_failure taskName)).
Proof.
  intros Hcall Hinv. unfold run_task, await_catch. unfold_M.
  rewrite Hcall. by destruct Hinv as [-> | ->].
Qed.

(** One task that returns something that is not a promise. *)
Lemma run_task_not_a_promise taskName task taskArgs w w2 v :
  task_call task {| ctx_args := taskArgs; ctx_log := "task." +:+ taskName |}
    (emit (EvLog "run" DEBUG ("running task: '" +:+ taskName +:+ "'") []) w)
  = (w2, ReturnsValue v) ->
  run_task taskName task taskArgs w
  = (emit (EvLog "run" ERROR (threw_message taskName)
             [LVal (no_catch_method "task" v)]) w2,
     Threw (task_failure taskName)).
Proof.
  intros Hcall. unfold run_task, await_catch. unfold_M. by rewrite Hcall.
Qed.

End Dispatch.

(** C1. A task of the batch whose call throws, or whose promise is rejected:
    the error is caught, the logger [run] gets an error call that names the
    task and carries the error itself, and a string naming the task is thrown
    in its place. Nothing listed after the task is run: the batch ends in the
    state the failing task left, with that one log call added, whatever
    [later] holds. [earlier] are the names before it, all found and all run
    to a good end, so that the batch gets to the task. *)
Theorem failing_task_stops_batch
    (userTasks builtinsTasks : NamedTasks) (earlier later : list string)
    (requested : string) (task : Task) (taskArgs : list (string * Val))
    (w w1 w2 : World) (inv : Invocation) (err : Val) :
  Forall (fun name =>
            is_Some (find_task userTasks builtinsTasks (lookup_name name)))
    earlier ->
  runTasks userTasks builtinsTasks earlier taskArgs w = (w1, Returned tt) ->
  find_task userTasks builtinsTasks (lookup_name requested) = Some task ->
  task_call task
    {| ctx_args := taskArgs; ctx_log := "task." +:+ lookup_name requested |}
    (emit (EvLog "run" DEBUG
             ("running task: '" +:+ lookup_name requested +:+ "'") []) w1)
  = (w2, inv) ->
  inv = ThrowsSync err \/ inv = ReturnsPromise (Rejected err) ->
  runTasks userTasks builtinsTasks (earlier ++ requested :: later) taskArgs w
  = (emit (EvLog "run" ERROR
             ("Task '" +:+ lookup_name requested +:+ "' threw an error")
             [LVal err]) w2,
     Threw (VStr ("Task '" +:+ lookup_name requested +:+ " threw an error"))).
Proof.
  intros Hearlier Hrun Hfound Hcall Hinv.
  rewrite (runTasks_app _ _ _ _ _ _ _ Hearlier Hrun). simpl.
  rewrite Hfound. unfold_M.
  by rewrite (run_task_failure _ _ _ _ _ _ _ Hcall Hinv).
Qed.

Lemma failing_task_stops_batch_witness :
  runTasks Demo.tasks ∅ (["build"] ++ "deploy" :: ["lint"; "build"]) []
    Demo.world
  = (emit (EvLog "run" ERROR "Task 'deploy' threw an error"
             [LVal (VStr "no credentials")])
       (emit (EvLog "run" DEBUG "running task: 'deploy'" [])
          (emit (EvConsole "building")
             (emit (EvLog "run" DEBUG "running task: 'build'" []) Demo.world))),
     Threw (VStr "Task 'deploy threw an error")).
Proof.
  apply (failing_task_stops_batch Demo.tasks ∅ ["build"] ["lint"; "build"]
           "deploy" (Demo.failing (VStr "no credentials")) [] Demo.world
           (emit (EvConsole "building")
              (emit (EvLog "run" DEBUG "running task: 'build'" []) Demo.world))
           _ (ReturnsPromise (Rejected (VStr "no credentials")))).
  - repeat constructor. vm_compute. eauto.
  - reflexivity.
  - reflexivity.
  - reflexivity.
  - right. reflexivity.
Defined.

(** A requested name that neither registry answers for: no key of the
    registries as it stands, none with [task_] before it in the user
    registry, and no member of [Object.prototype]. The logger [run] gets an
    error call that names the task and points to [_help], and the batch
    returns without throwing. Nothing listed after the name is run, and the
    state the earlier tasks left is the state the batch ends in, with that
    one log call added. *)
Lemma unanswered_name_ends_batch
    (userTasks builtinsTasks : NamedTasks) (earlier later : list string)
    (requested : string) (taskArgs : list (string * Val)) (w w1 : World) :
  Forall (fun name =>
            is_Some (find_task userTasks builtinsTasks (lookup_name name)))
    earlier ->
  runTasks userTasks builtinsTasks earlier taskArgs w = (w1, Returned tt) ->
  userTasks !! lookup_name requested = None ->
  userTasks !! ("task_" +:+ lookup_name requested) = None ->
  builtinsTasks !! lookup_name requested = None ->
  Object_prototype (lookup_name requested) = None ->
  runTasks userTasks builtinsTasks (earlier ++ requested :: later) taskArgs w
  = (emit (EvLog "run" ERROR
             ("could not find task function '" +:+ lookup_name requested
                +:+ "'. Run '_help' to show available tasks") []) w1,
     Returned tt).
Proof.
  intros Hearlier Hrun Hexact Hprefixed Hbuiltin Hown.
  rewrite (runTasks_app _ _ _ _ _ _ _ Hearlier Hrun). simpl.
  by rewrite find_task_cases, Hexact, Hprefixed, Hbuiltin.
Qed.

(** A requested name that is no key of the user registry and that
    [Object.prototype] answers for: the inherited function is taken for the
    task and called. The batch ends there with the error of a failed task,
    whatever the registries hold under [task_] and among the builtins. *)
Lemma inherited_name_fails_batch
    (userTasks builtinsTasks : NamedTasks) (later : list string)
    (requested : string) (inherited : Task) (taskArgs : list (string * Val))
    (w : World) :
  userTasks !! lookup_name requested = None ->
  Object_prototype (lookup_name requested) = Some inherited ->
  exists (w' : World) (err : Val),
    runTasks userTasks builtinsTasks (requested :: later) taskArgs w
    = (emit (EvLog "run" ERROR
               ("Task '" +:+ lookup_name requested +:+ "' threw an error")
               [LVal err]) w',
       Threw (VStr ("Task '" +:+ lookup_name requested +:+ " threw an error"))).
Proof.
  intros Hown Hinherited. simpl.
  rewrite (find_task_inherited _ _ _ _ Hown Hinherited). unfold_M.
  set (ctx := {| ctx_args := taskArgs;
                 ctx_log := "task." +:+ lookup_name requested |}).
  set (w0 := emit (EvLog "run" DEBUG
                     ("running task: '" +:+ lookup_name requested +:+ "'") [])
               w).
  destruct (task_call inherited ctx w0) as [w2 inv] eqn:Hcall.
  assert (Hends : (exists e, inv = ThrowsSync e) \/ (exists v, inv = ReturnsValue v)).
  { unfold Object_prototype in Hinherited.
    repeat (case_match; simplify_eq); simpl in Hcall; simplify_eq; eauto. }
  destruct Hends as [[e ->] | [v ->]].
  - exists w2, e.
    by rewrite (run_task_failure _ _ _ _ _ _ e Hcall (or_introl eq_refl)).
  - exists w2, (no_catch_method "task" v).
    by rewrite (run_task_not_a_promise _ _ _ _ _ _ Hcall).
Qed.

(** C2. The claim at [toString], a name no registry has a key for: the
    name is not reported as missing. The lookup in the user registry gives
    the [toString] every object inherits, the dispatcher calls it as the
    task, and the batch ends with the error of a failed task where the
    claim has the log call for a missing task and a return. This holds
    with no user task at all, whatever the builtins are and whatever is
    listed after the name. *)
Theorem inherited_name_is_run_as_task
    (builtinsTasks : NamedTasks) (later : list string)
    (taskArgs : list (string * Val)) (w : World) :
  runTasks ∅ builtinsTasks ("toString" :: later) taskArgs w
  = (emit (EvLog "run" ERROR "Task 'toString' threw an error"
             [LVal (VError "TypeError" "task(...).catch is not a function")])
       (emit (EvLog "run" DEBUG "running task: 'toString'" []) w),
     Threw (VStr "Task 'toString threw an error")).
Proof.
  simpl. change (lookup_name "toString") with "toString".
  rewrite (find_task_inherited ∅ builtinsTasks "toString" _ (lookup_empty _)
             eq_refl).
  unfold_M.
  erewrite (run_task_not_a_promise "toString"); [|reflexivity].
  reflexivity.
Qed.

(** Which task a name gets when [Object.prototype] does not answer for it:
    the key itself in the user registry first, then the key with [task_]
    before it in the user registry, then the key itself among the builtins;
    no key at all ends the batch with the log call. So a user registry with
    [task_build] and without [build] runs [task_build] for [build]. *)
Lemma resolution_by_keys
    (userTasks builtinsTasks : NamedTasks) (requested : string)
    (rest : list string) (taskArgs : list (string * Val)) (w : World) :
  (Object_prototype (lookup_name requested) = None ->
   runTasks userTasks builtinsTasks (requested :: rest) taskArgs w
   = match
       match userTasks !! lookup_name requested with
       | Some exact => Some exact
       | None =>
           match userTasks !! ("task_" +:+ lookup_name requested) with
           | Some prefixed => Some prefixed
           | None => builtinsTasks !! lookup_name requested
           end
       end
     with
     | Some task =>
         (run_task (lookup_name requested) task taskArgs;;
          runTasks userTasks builtinsTasks rest taskArgs) w
     | None =>
         log "run" ERROR (not_found_message (lookup_name requested)) [] w
     end)
  /\ (forall task_build : Task,
        userTasks !! "task_build" = Some task_build ->
        userTasks !! "build" = None ->
        runTasks userTasks builtinsTasks ("build" :: rest) taskArgs w
        = (run_task "build" task_build taskArgs;;
           runTasks userTasks builtinsTasks rest taskArgs) w).
Proof.
  split.
  - intros Hown. simpl. rewrite find_task_cases by done. by repeat case_match.
  - intros task_build Hprefixed Hexact. simpl.
    change (lookup_name "build") with "build".
    rewrite find_task_cases by done.
    change ("task_" +:+ "build") with "task_build".
    by rewrite Hexact, Hprefixed.
Qed.

(** C4. The claim at [toString], with a user registry whose one key is
    [task_toString]: the name does not get [task_toString]. There is no key
    [toString] in the user registry, so the claim has the key with [task_]
    next; the first lookup of the code is answered by the [toString] every
    object inherits, which is called as the task and fails the batch. The
    task under [task_toString] is not called, whatever it is, and neither
    is a builtin [toString]. *)
Theorem inherited_name_wins_over_task_prefix
    (task_toString : Task) (builtinsTasks : NamedTasks) (rest : list string)
    (taskArgs : list (string * Val)) (w : World) :
  runTasks {[ "task_toString" := task_toString ]} builtinsTasks
    ("toString" :: rest) taskArgs w
  = (emit (EvLog "run" ERROR "Task 'toString' threw an error"
             [LVal (VError "TypeError" "task(...).catch is not a function")])
       (emit (EvLog "run" DEBUG "running task: 'toString'" []) w),
     Threw (VStr "Task 'toString threw an error")).
Proof.
  simpl. change (lookup_name "toString") with "toString".
  rewrite (find_task_inherited {[ "task_toString" := task_toString ]}
             builtinsTasks "toString" _
             (lookup_singleton_ne "task_toString" "toString" task_toString
                ltac:(discriminate))
             eq_refl).
  unfold_M.
  erewrite (run_task_not_a_promise "toString"); [|reflexivity].
  reflexivity.
Qed.

(** A name with at most one dash is looked up under the name with
    underscores. *)
Lemma lookup_name_every (requested : string) :
  replace_every "-" "_" (lookup_name requested) = replace_every "-" "_" requested.
Proof.
  unfold lookup_name.
  induction requested as [|c rest IH]; simpl; [done|].
  destruct (Ascii.eqb c "-") eqn:Hc; simpl.
  - change (Ascii.eqb "_" "-") with false. simpl. done.
  - rewrite Hc. by rewrite IH.
Qed.

Lemma replace_every_no_dash (s : string) :
  dashes s = 0%nat -> replace_every "-" "_" s = s.
Proof.
  induction s as [|c rest IH]; simpl; [done|].
  destruct (Ascii.eqb c "-"); [done|]. intros Hrest. by rewrite IH.
Qed.

(** With no dash or one, the name looked up is the name with underscores. *)
Lemma lookup_name_one_dash (requested : string) :
  (dashes requested <= 1)%nat ->
  lookup_name requested = replace_every "-" "_" requested.
Proof.
  unfold lookup_name.
  induction requested as [|c rest IH]; simpl; [done|].
  destruct (Ascii.eqb c "-"); simpl; intros Hfew.
  - rewrite replace_every_no_dash; [done | lia].
  - by rewrite IH.
Qed.

(** C3. A name with two dashes: only the first becomes an underscore, so
    [my-long-task] is looked up as [my_long-task], the task registered as
    [my_long_task] is not found and the batch ends with the log call, while
    the name written with underscores runs the task. *)
Theorem second_dash_is_kept (task : Task) (taskArgs : list (string * Val))
    (w : World) :
  lookup_name "my-long-task" = "my_long-task"
  /\ replace_every "-" "_" "my-long-task" = "my_long_task"
  /\ runTasks {[ "my_long_task" := task ]} ∅ ["my-long-task"] taskArgs w
     = (emit (EvLog "run" ERROR
                "could not find task function 'my_long-task'. Run '_help' to show available tasks"
                []) w,
        Returned tt)
  /\ runTasks {[ "my_long_task" := task ]} ∅ ["my_long_task"] taskArgs w
     = (run_task "my_long_task" task taskArgs;; mret tt) w.
Proof.
  repeat split.
Qed.

(** ** The working directory *)

Lemma bind_eq {A B} (m : M A) (k : A -> M B) (w : World) :
  (m ≫= k) w
  = match m w with
    | (w1, Returned a) => k a w1
    | (w1, Threw e) => (w1, Threw e)
    | (w1, Hangs) => (w1, Hangs)
    end.
Proof. reflexivity. Qed.

Lemma chdir_absolute (below : string) (w : World) :
  Deno_chdir ("/" +:+ below) w
  = if dir_exists below w
    then ({| wd := below; dirs := dirs w; environ := environ w;
             events := events w |}, Returned tt)
    else (w, Threw (not_found ("chdir '/" +:+ below +:+ "'"))).
Proof. reflexivity. Qed.

(** A body with the way back in its [finally]: when the whole ends, either
    the directory is the one to go back to, or going back failed, the
    directory being gone, and that failure is what is thrown. *)
Lemma finally_back {A} (body : M A) (original : string) (w1 w' : World)
    (r : Completion A) :
  try_finally body (Deno_chdir ("/" +:+ original)) w1 = (w', r) ->
  r <> Hangs ->
  wd w' = original
  \/ (dir_exists original w' = false
      /\ r = Threw (not_found ("chdir '/" +:+ original +:+ "'"))).
Proof.
  unfold try_finally. intros Hrun Hends.
  destruct (body w1) as [w2 c]. rewrite chdir_absolute in Hrun.
  destruct (dir_exists original w2) eqn:Hdir.
  - left. by destruct c; simplify_eq.
  - right. by destruct c; simplify_eq.
Qed.

Lemma log_level_step (b : bool) (level : string) (w : World) :
  exists w0, when_ b (set_log_level level) w = (w0, Returned tt)
             /\ wd w0 = wd w /\ dirs w0 = dirs w.
Proof. destruct b; unfold_M; eauto. Qed.

Section Cwd.
Context (P : Platform).

(** [setWorkingDir] never hangs; where it throws, the directory has not
    moved. *)
Lemma setWorkingDir_throws opts w w1 e :
  setWorkingDir P opts w = (w1, Threw e) -> wd w1 = wd w.
Proof.
  unfold setWorkingDir. unfold_M. unfold Deno_chdir.
  intros Hset. repeat case_match; by simplify_eq.
Qed.

Lemma setWorkingDir_ends opts w w1 : setWorkingDir P opts w <> (w1, Hangs).
Proof.
  unfold setWorkingDir. unfold_M. unfold Deno_chdir.
  intros Hset. repeat case_match; by simplify_eq.
Qed.

(** However [run] ends, the directory is the one it started in, unless
    going back to it is what failed. *)
Lemma run_cwd opts cli w w' r :
  run P opts cli w = (w', r) ->
  r <> Hangs ->
  wd w' = wd w
  \/ (dir_exists (wd w) w' = false
      /\ r = Threw (not_found ("chdir '/" +:+ wd w +:+ "'"))).
Proof.
  unfold run. intros Hrun Hends.
  destruct (log_level_step
              (negb (flag_set "log" (flags cli)) && truthy_str (r_logLevel opts))
              (default "" (r_logLevel opts)) w) as (w0 & Hwhen & Hwd0 & _).
  rewrite bind_eq, Hwhen, bind_eq in Hrun. unfold Deno_cwd in Hrun.
  destruct (dir_exists (wd w0) w0); [|left; by simplify_eq].
  rewrite bind_eq in Hrun.
  destruct (setWorkingDir P opts w0) as [w1 [[]|e|]] eqn:Hset.
  - rewrite Hwd0 in Hrun. by apply finally_back in Hrun.
  - left. apply setWorkingDir_throws in Hset. simplify_eq. congruence.
  - by apply setWorkingDir_ends in Hset.
Qed.

End Cwd.

(** C8. [run] returns, be it at the end of the batch or at a name that is
    not found, or it throws the failure of a task: the working directory is
    then the one [run] was called in. *)
Theorem run_restores_cwd (P : Platform) (opts : RunOpts) (cli : TaskArgs)
    (w w' : World) (r : Completion unit) :
  run P opts cli w = (w', r) ->
  r = Returned tt
  \/ (exists taskName, r = Threw (VStr ("Task '" +:+ taskName +:+ " threw an error"))) ->
  wd w' = wd w.
Proof.
  intros Hrun Hr.
  assert (Hends : r <> Hangs) by (by destruct Hr as [-> | [taskName ->]]).
  destruct (run_cwd P opts cli w w' r Hrun Hends) as [Hback | [_ Hfailed]];
    [done|].
  by destruct Hr as [-> | [taskName ->]].
Qed.

Lemma run_restores_cwd_witness :
  wd (run Demo.platform Demo.opts (Demo.cli ["roam"; "deploy"; "build"])
        Demo.world).1
  = wd Demo.world.
Proof.
  apply (run_restores_cwd Demo.platform Demo.opts
           (Demo.cli ["roam"; "deploy"; "build"]) Demo.world _
           (Threw (VStr "Task 'deploy threw an error"))).
  - reflexivity.
  - right. exists "deploy". reflexivity.
Defined.

Section ExecCwd.
Context (P : Platform).


End ExecCwd.




(** ** Output and echo *)

Local Open Scope list_scope.

Lemma console_lines_emit (e : Event) (w : World) :
  console_lines (emit e w)
  = console_lines w ++ match e with EvConsole t => [t] | _ => [] end.
Proof.
  unfold console_lines, emit. simpl. rewrite omap_app. simpl.
  by destruct e.
Qed.

Section ExecString.
Context (P : Platform).

(** [_exec] on a command string, by the way the process ends. *)
Lemma _exec_string (c : string) (w : World) :
  _exec P {| ea_cmd := ECString c; ea_env := None |} w
  = match spawn P (piped c) (at_spawn c w) with
    | (ds, SpawnFails e) => (ran c ds w, Threw e)
    | (ds, Exits out err true code) => (ran c ds w, Returned (decode P out))
    | (ds, Exits out err false code) =>
        (ran c ds w, Threw (run_error (ECString c) code (decode P err)))
    | (ds, NeverExits) => (ran c ds w, Hangs)
    end.
Proof.
  unfold _exec, Deno_run, ran, at_spawn, piped. unfold_M. simpl.
  destruct (spawn P _ _) as [ds [e|out err [] code|]]; reflexivity.
Qed.

End ExecString.

Section Echo.
Context (P : Platform).

(** Entering the [dir] of a call: done, or the error of the call. *)
Lemma enter_dir (o : ExecOpts) (shape : CmdShape) (w : World) :
  when_ (truthy_str (dir o))
    (try_catch (Deno_chdir (default "" (dir o)))
       (fun err => throw (chdir_error (default "" (dir o)) shape err))) w
  = if truthy_str (dir o)
       && negb (dir_exists (chdir_target (wd w) (default "" (dir o))) w)
    then (w, Threw (chdir_error (default "" (dir o)) shape
                      (not_found ("chdir '" +:+ default "" (dir o) +:+ "'"))))
    else (entered o w, Returned tt).
Proof.
  unfold entered, when_, try_catch, throw, Deno_chdir.
  destruct (truthy_str (dir o)); [|done]. simpl.
  by destruct (dir_exists _ w).
Qed.

Lemma echo_step (on : bool) (text : string) (w : World) :
  when_ on (console_log text) w
  = (if on then emit (EvConsole text) w else w, Returned tt).
Proof. by destruct on. Qed.


(** The [catch] of [exec] always throws. *)
Lemma exec_handler_throws (o : ExecOpts) (err : Val) (w : World) :
  exists w1,
    (when_ (negb (is_false (logError o)))
       (log "exec" ERROR "error while executing"
          [LOpts (opts_shape o); LVal err]);;
     throw (A := string) (exec_error (opts_shape o) err)) w
    = (w1, Threw (exec_error (opts_shape o) err))
    /\ wd w1 = wd w /\ dirs w1 = dirs w.
Proof. unfold_M. destruct (negb _); eauto. Qed.

End Echo.




(** ** Sequences of commands *)

Section Sequence.
Context (P : Platform).

(** The first failure ends the loop: the commands after it are not looked
    at. *)
Lemma exec_each_stops (c : string) (rest out : list string) (w w1 : World)
    (e : Val) :
  _exec P {| ea_cmd := ECString c; ea_env := None |} w = (w1, Threw e) ->
  exec_each P (c :: rest) out w = (w1, Threw e).
Proof. intros Hfails. simpl. by rewrite bind_eq, Hfails. Qed.

(** A command that ends well hands over to the next, its output kept. *)
Lemma exec_each_next (c : string) (rest out : list string) (w w1 : World)
    (o : string) :
  _exec P {| ea_cmd := ECString c; ea_env := None |} w = (w1, Returned o) ->
  exec_each P (c :: rest) out w = exec_each P rest (out ++ [o]) w1.
Proof. intros Hok. simpl. by rewrite bind_eq, Hok. Qed.

(** [_exec] as [exec] calls it: one call of the logger and one call of
    [Deno.run], with no [env]. *)
Lemma _exec_events (c : string) (w w' : World) (r : Completion string) :
  _exec P {| ea_cmd := ECString c; ea_env := None |} w = (w', r) ->
  wd w' = wd w
  /\ events w'
     = events w
       ++ [EvLog "exec" TRACE ("cmd=" +:+ String.concat "," (split_on " " c)) [];
           EvRun (piped c)].
Proof.
  rewrite _exec_string. unfold ran, at_spawn, emit. simpl.
  intros Hexec.
  destruct (spawn P (piped c) _) as [ds [e|out err [] code|]];
    simplify_eq; simpl; by rewrite <- app_assoc.
Qed.

End Sequence.

(** ** What reaches [Deno.run] *)

Lemma adds_refl (w w' : World) : events w' = events w -> adds_without_env w w'.
Proof. intros Hsame. exists []. by rewrite app_nil_r. Qed.

Lemma adds_trans (w1 w2 w3 : World) :
  adds_without_env w1 w2 -> adds_without_env w2 w3 -> adds_without_env w1 w3.
Proof.
  intros (evs & H12 & Hall) (evs' & H23 & Hall').
  exists (evs ++ evs'). rewrite H23, H12, app_assoc. split; [done|].
  by apply Forall_app.
Qed.

Lemma adds_emit (e : Event) (w : World) :
  without_env e -> adds_without_env w (emit e w).
Proof. intros He. exists [e]. split; [done|]. by constructor. Qed.

Lemma env_free_ret {A} (a : A) : env_free (mret a).
Proof. intros w w' r Hm. unfold_M. simplify_eq. by apply adds_refl. Qed.

Lemma env_free_throw {A} (e : Val) : env_free (throw (A := A) e).
Proof. intros w w' r Hm. unfold_M. simplify_eq. by apply adds_refl. Qed.

Lemma env_free_bind {A B} (m : M A) (k : A -> M B) :
  env_free m -> (forall a, env_free (k a)) -> env_free (m ≫= k).
Proof.
  intros Hm Hk w w' r Hrun. rewrite bind_eq in Hrun.
  destruct (m w) as [w1 [a|e|]] eqn:Hfirst; apply Hm in Hfirst.
  - apply Hk in Hrun. by eapply adds_trans.
  - by simplify_eq.
  - by simplify_eq.
Qed.

Lemma env_free_try_catch {A} (body : M A) (handler : Val -> M A) :
  env_free body -> (forall e, env_free (handler e)) ->
  env_free (try_catch body handler).
Proof.
  intros Hbody Hhandler w w' r Hrun. unfold try_catch in Hrun.
  destruct (body w) as [w1 [a|e|]] eqn:Hfirst; apply Hbody in Hfirst.
  - by simplify_eq.
  - apply Hhandler in Hrun. by eapply adds_trans.
  - by simplify_eq.
Qed.

Lemma env_free_try_finally {A} (body : M A) (cleanup : M unit) :
  env_free body -> env_free cleanup -> env_free (try_finally body cleanup).
Proof.
  intros Hbody Hcleanup w w' r Hrun. unfold try_finally in Hrun.
  destruct (body w) as [w1 c] eqn:Hfirst. apply Hbody in Hfirst.
  destruct c as [a|thrown|]; [| |by simplify_eq];
    (destruct (cleanup w1) as [w2 [[]|e|]] eqn:Hlast; apply Hcleanup in Hlast;
     simplify_eq; by eapply adds_trans).
Qed.

Lemma env_free_when (on : bool) (m : M unit) : env_free m -> env_free (when_ on m).
Proof. destruct on; [done|]. intros _. apply env_free_ret. Qed.

Lemma env_free_log logger level msg args : env_free (log logger level msg args).
Proof. intros w w' r Hm. unfold_M. simplify_eq. by apply adds_emit. Qed.

Lemma env_free_console text : env_free (console_log text).
Proof. intros w w' r Hm. unfold_M. simplify_eq. by apply adds_emit. Qed.

Lemma env_free_cwd : env_free Deno_cwd.
Proof.
  intros w w' r Hm. unfold Deno_cwd in Hm.
  destruct (dir_exists _ _); simplify_eq; by apply adds_refl.
Qed.

Lemma env_free_chdir d : env_free (Deno_chdir d).
Proof.
  intros w w' r Hm. unfold Deno_chdir in Hm.
  destruct (dir_exists _ _); simplify_eq; by apply adds_refl.
Qed.

Section EnvFree.
Context (P : Platform).

Lemma env_free__exec (c : string) :
  env_free (_exec P {| ea_cmd := ECString c; ea_env := None |}).
Proof.
  intros w w' r Hm. apply _exec_events in Hm as [_ Hevents].
  eexists. split; [done|]. by repeat constructor.
Qed.

Lemma env_free_exec_each (cmds out : list string) :
  env_free (exec_each P cmds out).
Proof.
  revert out. induction cmds as [|c rest IH]; intros out; simpl.
  - apply env_free_ret.
  - apply env_free_bind; [apply env_free__exec | intros o; apply IH].
Qed.

(** Whatever [env] the caller gave: a string or an array of strings reaches
    [Deno.run] without it. *)
Lemma exec_env_free (o : ExecOpts) :
  (forall f, cmd o <> CmdFunction f) -> env_free (exec P (InOpts o)).
Proof.
  intros Hcmd. unfold exec.
  apply env_free_bind; [apply env_free_cwd|]. intros cwdOrginal.
  apply env_free_bind.
  { apply env_free_when, env_free_try_catch; [apply env_free_chdir|].
    intros e. apply env_free_throw. }
  intros _. apply env_free_try_finally.
  - apply env_free_try_catch.
    + destruct (cmd o) as [c|cmds|f]; [| |by destruct (Hcmd f)].
      * apply env_free_bind; [apply env_free_log|]. intros _.
        apply env_free_bind; [apply env_free__exec|]. intros out.
        apply env_free_bind; [|intros _; apply env_free_ret].
        apply env_free_when, env_free_console.
      * apply env_free_bind; [apply env_free_log|]. intros _.
        apply env_free_bind; [apply env_free_exec_each|]. intros out.
        apply env_free_bind; [|intros _; apply env_free_ret].
        apply env_free_when, env_free_console.
    + intros e. apply env_free_bind; [|intros _; apply env_free_throw].
      apply env_free_when, env_free_log.
  - apply env_free_when, env_free_chdir.
Qed.

End EnvFree.

(** C7. The [env] of a call never gets to the process: [exec] calls [_exec]
    with the command alone. With [GREETING] given in [env], [printenv
    GREETING] is started without it, finds nothing and fails; [_exec],
    handed the same [env], passes it to [Deno.run] and the command prints
    the value. *)
Theorem env_is_not_passed_on :
  (exists w' e,
     exec Demo.platform (InOpts Demo.greeting) Demo.world = (w', Threw e)
     /\ spawned w' = [piped "printenv GREETING"]
     /\ ro_env (piped "printenv GREETING") = None)
  /\ (exists w',
        _exec Demo.platform
          {| ea_cmd := ECString "printenv GREETING";
             ea_env := Some [("GREETING", "hello")] |} Demo.world
        = (w', Returned ("hello" +:+ nl))
        /\ ro_env <$> spawned w' = [Some [("GREETING", "hello")]]).
Proof.
  split.
  - do 2 eexists. split; [reflexivity|]. split; reflexivity.
  - exists (_exec Demo.platform
              {| ea_cmd := ECString "printenv GREETING";
                 ea_env := Some [("GREETING", "hello")] |} Demo.world).1.
    split; vm_compute; reflexivity.
Qed.

(** The error [exec] throws for a caught [Error] shows the options and an
    empty object: nothing of the error gets into it. *)
Lemma exec_error_of_error (o : OptsShape) (name msg : string) :
  exec_error o (VError name msg)
  = VError "Error" ("Error executing " +:+ json_stringify_opts o +:+ ", error {}").
Proof. reflexivity. Qed.

Section SequenceFailure.
Context (P : Platform).

(** [exec] on the array [[A, B, C]] where [A] ends well and [B] does not:
    the processes of [A] and of [B] are started, in that order, and no
    other; the failure of [B] goes to the logger with its exit code and its
    stderr; the error that is thrown holds neither. *)
Lemma sequence_failure (A B C : string) (w : World) (dsA dsB : list string)
    (outA errA outB errB : list Byte.byte) (codeA codeB : Z) :
  let started := emit (EvLog "exec" TRACE "exec (string[])" [LStrs [A; B; C]]) w in
  dir_exists (wd w) w = true ->
  spawn P (piped A) (at_spawn A started) = (dsA, Exits outA errA true codeA) ->
  spawn P (piped B) (at_spawn B (ran A dsA started))
  = (dsB, Exits outB errB false codeB) ->
  exec P (InArray [A; B; C]) w
  = (emit (EvLog "exec" ERROR "error while executing"
             [LOpts (opts_shape (only_cmd (CmdArray [A; B; C])));
              LVal (run_error (ECString B) codeB (decode P errB))])
       (ran B dsB (ran A dsA started)),
     Threw (VError "Error"
              ("Error executing "
                 +:+ json_stringify_opts
                       (opts_shape (only_cmd (CmdArray [A; B; C])))
                 +:+ ", error {}"))).
Proof.
  intros started Hcwd HA HB. unfold exec, only_cmd.
  cbn [cmd dir silent logError truthy_str is_false negb].
  rewrite bind_eq. unfold Deno_cwd. rewrite Hcwd.
  rewrite bind_eq. unfold when_ at 1. unfold mret at 1, M_ret, ret.
  unfold try_finally, try_catch.
  rewrite bind_eq. unfold log at 1. fold started.
  rewrite bind_eq. cbn [exec_each].
  rewrite bind_eq, _exec_string, HA.
  rewrite bind_eq, _exec_string, HB.
  reflexivity.
Qed.

End SequenceFailure.

(** C5. The array [['echo a', 'ls /nowhere', 'echo c']]: [echo a] and
    [ls /nowhere] are started, in that order, and [echo c] never is. The
    exit code 2 and the stderr of [ls] are in the error that goes to the
    logger; the error that [exec] throws has an empty object in their
    place. *)
Theorem failed_command_detail_is_lost :
  exists w',
    exec Demo.platform (InArray ["echo a"; "ls /nowhere"; "echo c"]) Demo.world
    = (w',
       Threw (VError "Error"
                ("Error executing "
                   +:+ json_stringify_opts
                         (opts_shape
                            (only_cmd
                               (CmdArray ["echo a"; "ls /nowhere"; "echo c"])))
                   +:+ ", error {}")))
    /\ spawned w' = [piped "echo a"; piped "ls /nowhere"]
    /\ last (events w')
       = Some (EvLog "exec" ERROR "error while executing"
                 [LOpts (opts_shape
                           (only_cmd
                              (CmdArray ["echo a"; "ls /nowhere"; "echo c"])));
                  LVal (VError "Error"
                          ("error while running 'ls /nowhere', status code '2', error 'ls: cannot access '/nowhere': No such file or directory"
                             +:+ nl +:+ "'"))]).
Proof.
  eexists. split.
  - eapply (sequence_failure Demo.platform "echo a" "ls /nowhere" "echo c"
              Demo.world); reflexivity.
  - split; reflexivity.
Qed.

(** ** Functions that are not [async] *)

Section NotAPromise.
Context (P : Platform).

(** [exec] on a function that returns something else than a promise, with
    no [dir]: the function has run, and the [TypeError] of [.catch] is
    handled as its failure. *)
Lemma exec_not_a_promise (o : ExecOpts) (f : JsFunction) (w w2 : World)
    (v : Val) :
  cmd o = CmdFunction f ->
  truthy_str (dir o) = false ->
  dir_exists (wd w) w = true ->
  fn_call f
    (emit (EvLog "exec" TRACE "exec (function)"
             [LCmd (ShFunction (fn_source f))]) w)
  = (w2, ReturnsValue v) ->
  exec P (InOpts o) w
  = (match logError o with
     | Some false => w2
     | _ =>
         emit (EvLog "exec" ERROR "error while executing"
                 [LOpts (opts_shape o); LVal (no_catch_method "cmd" v)]) w2
     end,
     Threw (exec_error (opts_shape o) (no_catch_method "cmd" v))).
Proof.
  intros Hcmd Hdir Hcwd Hcall. unfold exec. rewrite Hdir, Hcmd.
  rewrite bind_eq. unfold Deno_cwd. rewrite Hcwd.
  rewrite bind_eq. unfold when_ at 1. unfold mret at 1, M_ret, ret.
  unfold try_finally, try_catch.
  rewrite bind_eq. unfold log at 1.
  rewrite bind_eq. unfold await_catch. rewrite Hcall.
  by destruct (logError o) as [[]|].
Qed.

(** With or without [dir]: [exec] never returns from such a function. *)
Lemma exec_not_a_promise_throws (o : ExecOpts) (f : JsFunction)
    (w w' : World) (r : Completion string) :
  cmd o = CmdFunction f ->
  (forall w0, exists w1 v, fn_call f w0 = (w1, ReturnsValue v)) ->
  exec P (InOpts o) w = (w', r) ->
  exists e, r = Threw e.
Proof.
  intros Hcmd Hsync Hexec. unfold exec in Hexec.
  rewrite bind_eq in Hexec. unfold Deno_cwd in Hexec.
  destruct (dir_exists (wd w) w); [|simplify_eq; eauto].
  rewrite bind_eq, enter_dir in Hexec.
  destruct (_ && _); [simplify_eq; eauto|].
  rewrite Hcmd in Hexec. unfold try_finally, try_catch in Hexec.
  rewrite bind_eq in Hexec. unfold log at 1 in Hexec.
  rewrite bind_eq in Hexec. unfold await_catch in Hexec.
  destruct (Hsync (emit (EvLog "exec" TRACE "exec (function)"
                           [LCmd (ShFunction (fn_source f))]) (entered o w)))
    as (w1 & v & Hcall).
  rewrite Hcall in Hexec.
  destruct (exec_handler_throws o (no_catch_method "cmd" v) w1)
    as (w2 & Hhandler & _).
  rewrite Hhandler in Hexec.
  destruct (when_ _ _ w2) as [w3 [[]|e|]] eqn:Hleave; simplify_eq; eauto.
  unfold when_, Deno_chdir in Hleave. unfold_M.
  repeat case_match; simplify_eq.
Qed.

End NotAPromise.

(** C10. A task whose call returns something that is not a promise, such as
    a plain function that returns [undefined]: the task has run to its end
    ([w2] is the state it left), and yet the logger [run] gets the error
    call for it, with the [TypeError] of the missing [catch], the string
    naming the task is thrown and the batch ends there. The same for a
    plain function given to [exec] as [cmd]: it has run, and [exec] throws
    its execution error; with or without [dir], [exec] never returns from
    such a function. *)
Theorem not_a_promise_counts_as_failure :
  (forall (userTasks builtinsTasks : NamedTasks) (earlier later : list string)
          (requested : string) (task : Task) (taskArgs : list (string * Val))
          (w w1 w2 : World) (v : Val),
     Forall (fun name =>
               is_Some (find_task userTasks builtinsTasks (lookup_name name)))
       earlier ->
     runTasks userTasks builtinsTasks earlier taskArgs w = (w1, Returned tt) ->
     find_task userTasks builtinsTasks (lookup_name requested) = Some task ->
     task_call task
       {| ctx_args := taskArgs; ctx_log := "task." +:+ lookup_name requested |}
       (emit (EvLog "run" DEBUG
                ("running task: '" +:+ lookup_name requested +:+ "'") []) w1)
     = (w2, ReturnsValue v) ->
     runTasks userTasks builtinsTasks (earlier ++ requested :: later) taskArgs w
     = (emit (EvLog "run" ERROR
                ("Task '" +:+ lookup_name requested +:+ "' threw an error")
                [LVal (no_catch_method "task" v)]) w2,
        Threw (VStr ("Task '" +:+ lookup_name requested +:+ " threw an error"))))
  /\ (forall (P : Platform) (o : ExecOpts) (f : JsFunction) (w w2 : World)
             (v : Val),
        cmd o = CmdFunction f ->
        truthy_str (dir o) = false ->
        dir_exists (wd w) w = true ->
        fn_call f
          (emit (EvLog "exec" TRACE "exec (function)"
                   [LCmd (ShFunction (fn_source f))]) w)
        = (w2, ReturnsValue v) ->
        exec P (InOpts o) w
        = (match logError o with
           | Some false => w2
           | _ =>
               emit (EvLog "exec" ERROR "error while executing"
                       [LOpts (opts_shape o); LVal (no_catch_method "cmd" v)])
                 w2
           end,
           Threw (VError "Error"
                    ("Error executing " +:+ json_stringify_opts (opts_shape o)
                       +:+ ", error {}"))))
  /\ (forall (P : Platform) (o : ExecOpts) (f : JsFunction) (w w' : World)
             (r : Completion string),
        cmd o = CmdFunction f ->
        (forall w0, exists w1 v, fn_call f w0 = (w1, ReturnsValue v)) ->
        exec P (InOpts o) w = (w', r) ->
        exists e, r = Threw e).
Proof.
  split; [|split].
  - intros userTasks builtinsTasks earlier later requested task taskArgs
      w w1 w2 v Hearlier Hrun Hfound Hcall.
    rewrite (runTasks_app _ _ _ _ _ _ _ Hearlier Hrun). simpl.
    rewrite Hfound. unfold_M.
    by rewrite (run_task_not_a_promise _ _ _ _ _ _ Hcall).
  - intros P o f w w2 v Hcmd Hdir Hcwd Hcall.
    rewrite (exec_not_a_promise P o f w w2 v Hcmd Hdir Hcwd Hcall).
    by destruct v.
  - intros P. apply exec_not_a_promise_throws.
Qed.

Lemma not_a_promise_counts_as_failure_witness :
  runTasks Demo.tasks ∅ (["build"] ++ "lint" :: ["build"]) [] Demo.world
  = (emit (EvLog "run" ERROR "Task 'lint' threw an error"
             [LVal (VError "TypeError"
                      "Cannot read properties of undefined (reading 'catch')")])
       (emit (EvConsole "linting")
          (emit (EvLog "run" DEBUG "running task: 'lint'" [])
             (emit (EvConsole "building")
                (emit (EvLog "run" DEBUG "running task: 'build'" [])
                   Demo.world)))),
     Threw (VStr "Task 'lint threw an error"))
  /\ (exec Demo.platform (InOpts (only_cmd (CmdFunction Demo.plain_fn)))
        Demo.world).2
     = Threw (VError "Error" "Error executing {}, error {}")
  /\ exists e,
       (exec Demo.platform (InOpts Demo.plain_in_build) Demo.world).2
       = Threw e.
Proof.
  destruct not_a_promise_counts_as_failure as (Htask & Hexec & Hnever).
  split; [|split].
  - apply (Htask Demo.tasks ∅ ["build"] ["build"] "lint"
             (Demo.plain "linting") [] Demo.world
             (emit (EvConsole "building")
                (emit (EvLog "run" DEBUG "running task: 'build'" [])
                   Demo.world))
             (emit (EvConsole "linting")
                (emit (EvLog "run" DEBUG "running task: 'lint'" [])
                   (emit (EvConsole "building")
                      (emit (EvLog "run" DEBUG "running task: 'build'" [])
                         Demo.world))))
             VUndefined).
    + repeat constructor. vm_compute. eauto.
    + reflexivity.
    + reflexivity.
    + reflexivity.
  - erewrite (Hexec Demo.platform (only_cmd (CmdFunction Demo.plain_fn))
                Demo.plain_fn Demo.world); reflexivity.
  - eapply (Hnever Demo.platform Demo.plain_in_build Demo.plain_fn
              Demo.world).
    + reflexivity.
    + intros w0. by exists w0, VUndefined.
    + apply surjective_pairing.
Defined.

(** * Further properties *)

(** ** hash.ts *)

Section HashCode.
Import Hash.

Lemma to_int32_range (x : Z) : - 2 ^ 31 <= to_int32 x < 2 ^ 31.
Proof.
  unfold to_int32.
  pose proof (Z.mod_pos_bound (x + 2 ^ 31) (2 ^ 32) ltac:(lia)). lia.
Qed.

Lemma to_int32_mod (x : Z) : to_int32 x mod 2 ^ 32 = x mod 2 ^ 32.
Proof.
  unfold to_int32.
  rewrite Zminus_mod, Zmod_mod, <- Zminus_mod. f_equal. lia.
Qed.

(** Two numbers that agree modulo 2^32 have the same 32-bit integer. *)
Lemma to_int32_congr (x y : Z) :
  x mod 2 ^ 32 = y mod 2 ^ 32 -> to_int32 x = to_int32 y.
Proof.
  intros Hxy. unfold to_int32.
  rewrite (Zplus_mod x), (Zplus_mod y), Hxy. reflexivity.
Qed.

Lemma to_int32_small (x : Z) : - 2 ^ 31 <= x < 2 ^ 31 -> to_int32 x = x.
Proof.
  intros Hx. unfold to_int32. rewrite Z.mod_small; lia.
Qed.

Lemma step_31 (hash c : Z) : step hash c = to_int32 (31 * hash + c).
Proof.
  unfold step. apply to_int32_congr.
  rewrite Z.shiftl_mul_pow2 by lia.
  rewrite Zplus_mod, Zminus_mod, to_int32_mod.
  rewrite <- Zminus_mod, <- Zplus_mod. f_equal. lia.
Qed.

Lemma to_int32_absorb (x y : Z) :
  to_int32 (31 * to_int32 x + y) = to_int32 (31 * x + y).
Proof.
  apply to_int32_congr.
  rewrite Zplus_mod, Zmult_mod, to_int32_mod, <- Zmult_mod, <- Zplus_mod.
  reflexivity.
Qed.

(** The loop from any start: the polynomial in 31, cut to 32 bits. *)
Lemma fold_step_poly (s : list Z) (h : Z) :
  (fold_left step s h) mod 2 ^ 32
  = (fold_left (fun acc c => 31 * acc + c) s h) mod 2 ^ 32.
Proof.
  revert h. induction s as [|c s IH]; intros h; cbn [fold_left]; [done|].
  rewrite IH. clear IH.
  assert (Hgen : forall a b, a mod 2 ^ 32 = b mod 2 ^ 32 ->
            fold_left (fun acc c => 31 * acc + c) s a mod 2 ^ 32
            = fold_left (fun acc c => 31 * acc + c) s b mod 2 ^ 32).
  { induction s as [|d s IHs]; intros a b Hab; cbn [fold_left]; [done|].
    apply IHs.
    rewrite Zplus_mod, Zmult_mod, Hab, <- Zmult_mod, <- Zplus_mod.
    reflexivity. }
  apply Hgen. rewrite step_31. apply to_int32_mod.
Qed.

Lemma fold_step_range (s : list Z) (h : Z) :
  - 2 ^ 31 <= h < 2 ^ 31 -> - 2 ^ 31 <= fold_left step s h < 2 ^ 31.
Proof.
  revert h. induction s as [|c s IH]; intros h Hh; cbn [fold_left]; [done|].
  apply IH. apply to_int32_range.
Qed.

Lemma fold_poly_app_from (t : list Z) (a b : Z) :
  fold_left (fun acc c => 31 * acc + c) t (a + b)
  = a * 31 ^ Z.of_nat (length t) + fold_left (fun acc c => 31 * acc + c) t b.
Proof.
  revert a b. induction t as [|c t IH]; intros a b; cbn [length fold_left].
  - change (Z.of_nat 0) with 0. lia.
  - replace (31 * (a + b) + c) with (31 * a + (31 * b + c)) by lia.
    rewrite IH, Nat2Z.inj_succ, Z.pow_succ_r by lia. lia.
Qed.

End HashCode.

(** X1. [hashCode] is a 32-bit signed integer, whatever the string; the
    empty string hashes to 0. *)
Theorem hashCode_is_int32 (s : list Z) :
  - 2 ^ 31 <= Hash.hashCode s < 2 ^ 31 /\ Hash.hashCode [] = 0.
Proof.
  split; [|reflexivity]. apply fold_step_range. lia.
Qed.

(** X2. [hashCode] is the polynomial of the code units in 31, the first
    unit with the highest power, wrapped to 32 bits: the shift and the
    subtraction multiply by 31. *)
Theorem hashCode_polynomial (s : list Z) :
  Hash.hashCode s
  = Hash.to_int32 (fold_left (fun acc c => 31 * acc + c) s 0).
Proof.
  rewrite <- (to_int32_small (Hash.hashCode s))
    by (apply fold_step_range; lia).
  apply to_int32_congr, fold_step_poly.
Qed.

(** X3. The hash of a concatenation from the hashes of its parts: the hash
    of the front is moved up by one power of 31 for each unit of the back. *)
Theorem hashCode_app (s t : list Z) :
  Hash.hashCode (s ++ t)
  = Hash.to_int32
      (Hash.hashCode s * 31 ^ Z.of_nat (length t) + Hash.hashCode t).
Proof.
  rewrite (hashCode_polynomial (s ++ t)). apply to_int32_congr.
  rewrite fold_left_app.
  replace (fold_left (fun acc c => 31 * acc + c) s 0)
    with (fold_left (fun acc c => 31 * acc + c) s 0 + 0) by lia.
  rewrite fold_poly_app_from.
  rewrite Zplus_mod, Zmult_mod.
  rewrite <- (fold_step_poly s 0), <- (fold_step_poly t 0).
  rewrite <- Zmult_mod, <- Zplus_mod. reflexivity.
Qed.

(** X4. [hashCode] is not one to one: raising a unit by one and lowering
    the next by 31 leaves the hash as it is, anywhere in a string (as in
    [Aa] and [BB]). *)
Theorem hashCode_collision (front back : list Z) (a b : Z) :
  Hash.hashCode (front ++ [a + 1; b] ++ back)
  = Hash.hashCode (front ++ [a; b + 31] ++ back).
Proof.
  unfold Hash.hashCode. rewrite !fold_left_app. cbn [fold_left].
  f_equal. rewrite !step_31, !to_int32_absorb. f_equal. lia.
Qed.

(** ** What [exec] and [_exec] leave alone *)

Lemma spawned_emit (e : Event) (w : World) :
  spawned (emit e w)
  = spawned w ++ match e with EvRun o => [o] | _ => [] end.
Proof.
  unfold spawned, emit. simpl. rewrite omap_app. simpl. by destruct e.
Qed.

(** [exec] is its parts put together. *)
Lemma exec_parts (P : Platform) (o : ExecOpts) :
  exec P (InOpts o)
  = (cwdOrginal ← Deno_cwd;
     when_ (truthy_str (dir o))
       (try_catch (Deno_chdir (default "" (dir o)))
          (fun err =>
             throw (chdir_error (default "" (dir o)) (cmd_shape (cmd o)) err)));;
     try_finally (try_catch (exec_try P o) (exec_catch o))
       (when_ (truthy_str (dir o)) (Deno_chdir cwdOrginal))).
Proof. reflexivity. Qed.

(** *** Splitting a command string *)

Lemma split_on_cons (sep : ascii) (s : string) :
  exists piece pieces, split_on sep s = piece :: pieces.
Proof.
  destruct s as [|c rest]; simpl; [eauto|].
  destruct (Ascii.eqb c sep); [eauto|]. destruct (split_on sep rest); eauto.
Qed.

Lemma split_on_join (sep : ascii) (s : string) :
  String.concat (String sep "") (split_on sep s) = s.
Proof.
  induction s as [|c rest IH]; simpl; [done|].
  destruct (split_on_cons sep rest) as (piece & pieces & Hrest).
  rewrite Hrest in *.
  destruct (Ascii.eqb_spec c sep) as [->|Hc].
  - change (String.concat (String sep "") ("" :: piece :: pieces))
      with (String sep (String.concat (String sep "") (piece :: pieces))).
    by rewrite IH.
  - rewrite <- IH. by destruct pieces.
Qed.

Lemma split_on_pieces (sep : ascii) (s : string) :
  Forall (fun piece => occurrences sep piece = 0%nat) (split_on sep s)
  /\ length (split_on sep s) = S (occurrences sep s).
Proof.
  induction s as [|c rest [IHall IHlen]]; simpl.
  - split; [by repeat constructor|done].
  - destruct (Ascii.eqb_spec c sep) as [->|Hc].
    + split; [by constructor|]. simpl. by rewrite IHlen.
    + destruct (split_on sep rest) as [|piece pieces] eqn:Hrest;
        [by destruct (split_on_cons sep rest) as (? & ? & ?)|].
      inversion IHall as [|? ? Hpiece Hpieces]; subst.
      split; [|done]. constructor; [|done]. simpl.
      by destruct (Ascii.eqb_spec c sep).
Qed.

Section ExecOne.
Context (P : Platform).

(** What one call of [_exec] does to the process. *)
Lemma _exec_effects (a : ExecArgs) (w w' : World) (r : Completion string) :
  _exec P a w = (w', r) ->
  exists o ds e,
    ro_cmd o = match ea_cmd a with
               | ECString s => split_on " " s
               | ECArgv l => l
               | ECOptions eo => eo_cmd eo
               end
    /\ ro_cwd o = match ea_cmd a with
                  | ECOptions eo => eo_cwd eo
                  | _ => None
                  end
    /\ ro_env o = ea_env a
    /\ ro_stdout o = Some "piped" /\ ro_stderr o = Some "piped"
    /\ spawn P o
         (emit (EvLog "exec" TRACE ("cmd=" +:+ String.concat "," (ro_cmd o)) [])
            w)
       = (ds, e)
    /\ w' = {| wd := wd w; dirs := ds; environ := environ w;
               events := events w
                         ++ [EvLog "exec" TRACE
                               ("cmd=" +:+ String.concat "," (ro_cmd o)) [];
                             EvRun o] |}
    /\ r = match e with
           | SpawnFails err => Threw err
           | Exits out err true code => Returned (decode P out)
           | Exits out err false code =>
               Threw (run_error (ea_cmd a) code (decode P err))
           | NeverExits => Hangs
           end.
Proof.
  intros Hexec. destruct a as [c en].
  unfold _exec, Deno_run in Hexec. unfold_M. unfold emit in *.
  destruct c; cbn in Hexec |- *;
    (match type of Hexec with
     | context [spawn P ?o ?w1] =>
         exists o; destruct (spawn P o w1) as [ds e] eqn:Hspawn
     end);
    exists ds, e; cbn;
    (destruct e as [err|out err [] code|]; cbn in Hexec; simplify_eq;
     rewrite <- ?app_assoc; by repeat split).
Qed.

End ExecOne.

(** X5. A command string is cut at every single space, and nothing else:
    the arguments [Deno.run] gets, joined with spaces, are the string again;
    no argument holds a space; and there is one argument more than there
    are spaces, so that two spaces in a row, or a space at either end, give
    an empty argument, and quotes keep nothing together. *)
Theorem command_string_is_cut_at_spaces (P : Platform) (c : string)
    (en : option (list (string * string))) (w : World) :
  exists o,
    spawned (_exec P {| ea_cmd := ECString c; ea_env := en |} w).1
    = spawned w ++ [o]
    /\ String.concat " " (ro_cmd o) = c
    /\ Forall (fun arg => occurrences " " arg = 0%nat) (ro_cmd o)
    /\ length (ro_cmd o) = S (occurrences " " c).
Proof.
  destruct (_exec P {| ea_cmd := ECString c; ea_env := en |} w) as [w' r] eqn:Hexec.
  apply _exec_effects in Hexec
    as (o & ds & e & Hcmd & _ & _ & _ & _ & _ & -> & _).
  exists o. simpl in Hcmd. split.
  - unfold spawned. simpl. by rewrite omap_app.
  - rewrite Hcmd. split; [apply split_on_join | apply split_on_pieces].
Qed.

(** X6. One call of [_exec] starts one process, with stdout and stderr
    piped. Its [env] is the [env] of the argument of [_exec]: a command
    given as an options object loses the [env] it came with (it is
    overwritten, by [undefined] when the argument has none) and keeps its
    [cmd] and [cwd]; an argv is handed on as it is. The working directory
    and the environment of the process itself are not touched, and nothing
    is printed. *)
Theorem _exec_starts_one_process (P : Platform) (a : ExecArgs) (w w' : World)
    (r : Completion string) :
  _exec P a w = (w', r) ->
  (exists o,
     spawned w' = spawned w ++ [o]
     /\ ro_env o = ea_env a
     /\ ro_stdout o = Some "piped" /\ ro_stderr o = Some "piped"
     /\ match ea_cmd a with
        | ECString s => ro_cmd o = split_on " " s /\ ro_cwd o = None
        | ECArgv l => ro_cmd o = l /\ ro_cwd o = None
        | ECOptions eo => ro_cmd o = eo_cmd eo /\ ro_cwd o = eo_cwd eo
        end)
  /\ wd w' = wd w /\ environ w' = environ w
  /\ console_lines w' = console_lines w.
Proof.
  intros Hexec.
  apply _exec_effects in Hexec
    as (o & ds & e & Hcmd & Hcwd & Henv & Hout & Herr & _ & -> & _).
  split; [|repeat split].
  - exists o. repeat split; try done.
    + unfold spawned. simpl. by rewrite omap_app.
    + by destruct (ea_cmd a).
  - unfold console_lines. simpl. rewrite omap_app. simpl. by rewrite app_nil_r.
Qed.

Lemma _exec_starts_one_process_witness :
  exists o,
    spawned
      (_exec Demo.platform
         {| ea_cmd :=
              ECOptions {| eo_cmd := ["printenv"; "GREETING"]; eo_cwd := Some "/tmp";
                           eo_env := Some [("GREETING", "hello")] |};
            ea_env := None |} Demo.world).1
    = spawned Demo.world ++ [o]
    /\ ro_env o = None
    /\ ro_cwd o = Some "/tmp".
Proof.
  destruct (_exec_starts_one_process Demo.platform
              {| ea_cmd :=
                   ECOptions {| eo_cmd := ["printenv"; "GREETING"];
                                eo_cwd := Some "/tmp";
                                eo_env := Some [("GREETING", "hello")] |};
                 ea_env := None |} Demo.world _ _ (surjective_pairing _))
    as [(o & Hspawned & Henv & _ & _ & _ & Hcwd) _].
  exists o. by repeat split.
Defined.

(** X7. How [_exec] ends, by the way the process ends. When [Deno.run]
    throws, that error is thrown. On a good exit the decoded stdout is
    returned and stderr plays no part. On a bad exit stdout is dropped and
    the error holds the exit code, the decoded stderr, and the command as
    [String] shows it: a string as it is, an argv with commas between the
    arguments, an options object as [[object Object]]. A process that never
    ends leaves [_exec] waiting. *)
Theorem _exec_ends_as_the_process (P : Platform) (a : ExecArgs) (w w' : World)
    (r : Completion string) :
  _exec P a w = (w', r) ->
  exists o e,
    last (spawned w') = Some o
    /\ (spawn P o
          (emit (EvLog "exec" TRACE ("cmd=" +:+ String.concat "," (ro_cmd o)) [])
             w)).2 = e
    /\ r = match e with
           | SpawnFails err => Threw err
           | Exits out err true code => Returned (decode P out)
           | Exits out err false code =>
               Threw
                 (VError "Error"
                    ("error while running '"
                       +:+ match ea_cmd a with
                           | ECString s => s
                           | ECArgv l => String.concat "," l
                           | ECOptions _ => "[object Object]"
                           end
                       +:+ "', status code '" +:+ pretty code +:+ "', error '"
                       +:+ decode P err +:+ "'"))
           | NeverExits => Hangs
           end.
Proof.
  intros Hexec.
  apply _exec_effects in Hexec
    as (o & ds & e & _ & _ & _ & _ & _ & Hspawn & -> & ->).
  exists o, e. split; [|split].
  - unfold spawned. simpl. rewrite omap_app. simpl. apply last_snoc.
  - by rewrite Hspawn.
  - by destruct e as [err|out err [] code|].
Qed.

Lemma _exec_ends_as_the_process_witness :
  (_exec Demo.platform {| ea_cmd := ECArgv ["ls"; "/nowhere"]; ea_env := None |}
     Demo.world).2
  = Threw
      (VError "Error"
         ("error while running 'ls,/nowhere', status code '2', error 'ls: cannot access '/nowhere': No such file or directory"
            +:+ nl +:+ "'")).
Proof.
  destruct (_exec_ends_as_the_process Demo.platform
              {| ea_cmd := ECArgv ["ls"; "/nowhere"]; ea_env := None |}
              Demo.world _ _ (surjective_pairing _))
    as (o & e & Hlast & He & Hr).
  rewrite Hr. vm_compute in Hlast. injection Hlast as <-.
  vm_compute in He. subst e. reflexivity.
Defined.

(** ** [exec], stage by stage *)

Section ExecShape.
Context (P : Platform).

(** The whole of [exec] in one case split: the two ways to fail before the
    [try], then the [try] block, its [catch] and the way out. *)
Lemma exec_shape (o : ExecOpts) (w : World) :
  exec P (InOpts o) w
  = if dir_exists (wd w) w then
      if truthy_str (dir o)
         && negb (dir_exists (chdir_target (wd w) (default "" (dir o))) w)
      then (w, Threw (chdir_error (default "" (dir o)) (cmd_shape (cmd o))
                        (not_found ("chdir '" +:+ default "" (dir o) +:+ "'"))))
      else
        match exec_try P o (entered o w) with
        | (w1, Hangs) => (w1, Hangs)
        | (w1, Returned s) => exec_leave o (wd w) w1 (Returned s)
        | (w1, Threw e) =>
            exec_leave o (wd w) (exec_logged o e w1)
              (Threw (exec_error (opts_shape o) e))
        end
    else (w, Threw (not_found "getcwd")).
Proof.
  rewrite exec_parts, bind_eq. unfold Deno_cwd.
  destruct (dir_exists (wd w) w); [|done].
  rewrite bind_eq, enter_dir.
  destruct (_ && _); [done|].
  unfold try_finally, try_catch, exec_leave, exec_logged, exec_catch.
  destruct (exec_try P o (entered o w)) as [w1 [s|e|]]; [| |done].
  - unfold when_. destruct (truthy_str (dir o)); [|done].
    rewrite chdir_absolute. by destruct (dir_exists (wd w) w1).
  - rewrite bind_eq. unfold when_, log, throw, mret, M_ret, ret.
    destruct (is_false (logError o)); cbn [negb]; cbv beta iota;
      (destruct (truthy_str (dir o)); [|done]);
      rewrite chdir_absolute; by destruct (dir_exists (wd w) _).
Qed.

End ExecShape.

Section ExecTry.
Context (P : Platform).

Lemma _exec_string_effects (c : string) (w w' : World) (r : Completion string) :
  _exec P {| ea_cmd := ECString c; ea_env := None |} w = (w', r) ->
  wd w' = wd w /\ environ w' = environ w
  /\ events w `prefix_of` events w'
  /\ console_lines w' = console_lines w
  /\ spawned w' = spawned w ++ [piped c].
Proof.
  intros Hexec.
  apply _exec_effects in Hexec
    as (o & ds & e & Hcmd & Hcwd & Henv & Hout & Herr & _ & -> & _).
  assert (o = piped c) as -> by (destruct o; simpl in *; by subst).
  repeat split; simpl.
  - by eexists.
  - unfold console_lines. simpl. rewrite omap_app. simpl. by rewrite app_nil_r.
  - unfold spawned. simpl. by rewrite omap_app.
Qed.

(** The loop over the commands: they are started in order, each once, up
    to the first that does not end well. *)
Lemma exec_each_run (cmds out : list string) (w w' : World)
    (r : Completion (list string)) :
  exec_each P cmds out w = (w', r) ->
  wd w' = wd w /\ environ w' = environ w
  /\ events w `prefix_of` events w'
  /\ console_lines w' = console_lines w
  /\ exists k,
       (k <= length cmds)%nat
       /\ spawned w' = spawned w ++ (piped <$> take k cmds)
       /\ (forall res, r = Returned res ->
             k = length cmds
             /\ length res = (length out + length cmds)%nat).
Proof.
  revert out w. induction cmds as [|c rest IH]; intros out w Hloop.
  - simpl in Hloop. unfold_M. simplify_eq. repeat split; [done..|].
    exists 0%nat. simpl. rewrite app_nil_r. split; [lia|]. split; [done|].
    intros res ?. simplify_eq. split; [done|lia].
  - simpl in Hloop. rewrite bind_eq in Hloop.
    destruct (_exec P _ w) as [w1 [o|e|]] eqn:Hone;
      apply _exec_string_effects in Hone
        as (Hwd & Henv & Hev & Hcon & Hsp).
    + apply IH in Hloop
        as (Hwd' & Henv' & Hev' & Hcon' & k & Hk & Hsp' & Hres).
      repeat split; [congruence|congruence|by etrans|congruence|].
      exists (S k). simpl. split; [lia|]. split.
      * by rewrite Hsp', Hsp, <- app_assoc.
      * intros res Hr. destruct (Hres res Hr) as [-> Hlen].
        split; [done|]. rewrite Hlen, length_app. simpl. lia.
    + simplify_eq. repeat split; [done..|].
      exists 1%nat. simpl. split; [lia|]. split; [by destruct rest|done].
    + simplify_eq. repeat split; [done..|].
      exists 1%nat. simpl. split; [lia|]. split; [by destruct rest|done].
Qed.

(** The [try] block on a string or an array of strings. *)
Lemma exec_try_commands (o : ExecOpts) (w w' : World) (r : Completion string) :
  (forall f, cmd o <> CmdFunction f) ->
  exec_try P o w = (w', r) ->
  wd w' = wd w /\ environ w' = environ w
  /\ events w `prefix_of` events w'
  /\ (exists k,
        (k <= length (commands (cmd o)))%nat
        /\ spawned w' = spawned w ++ (piped <$> take k (commands (cmd o)))
        /\ (forall s, r = Returned s -> k = length (commands (cmd o))))
  /\ console_lines w'
     = console_lines w
       ++ match r with
          | Returned s => if is_false (silent o) then [s] else []
          | _ => []
          end.
Proof.
  intros Hcmd Htry. unfold exec_try in Htry.
  destruct (cmd o) as [c|cmds|f]; [| |by destruct (Hcmd f)]; simpl commands.
  - rewrite bind_eq in Htry. unfold log at 1 in Htry.
    rewrite bind_eq in Htry.
    destruct (_exec P _ _) as [w1 [out|e|]] eqn:Hone;
      apply _exec_string_effects in Hone
        as (Hwd & Henv & Hev & Hcon & Hsp);
      rewrite console_lines_emit in Hcon; rewrite spawned_emit in Hsp;
      rewrite !app_nil_r in *.
    + rewrite bind_eq, echo_step in Htry. unfold_M. simplify_eq.
      destruct (is_false (silent o)).
      * repeat split; simpl; [done..| | |].
        -- etrans; [|by eexists]. etrans; [|exact Hev]. by eexists.
        -- exists 1%nat. rewrite spawned_emit, app_nil_r. by repeat split.
        -- by rewrite console_lines_emit, Hcon.
      * repeat split; [done..| | |].
        -- etrans; [|exact Hev]. by eexists.
        -- exists 1%nat. by repeat split.
        -- by rewrite app_nil_r.
    + simplify_eq. repeat split; [done..| | |].
      * etrans; [|exact Hev]. by eexists.
      * exists 1%nat. by repeat split.
      * by rewrite app_nil_r.
    + simplify_eq. repeat split; [done..| | |].
      * etrans; [|exact Hev]. by eexists.
      * exists 1%nat. by repeat split.
      * by rewrite app_nil_r.
  - rewrite bind_eq in Htry. unfold log at 1 in Htry.
    rewrite bind_eq in Htry.
    destruct (exec_each P cmds [] _) as [w1 [out|e|]] eqn:Hloop;
      apply exec_each_run in Hloop
        as (Hwd & Henv & Hev & Hcon & k & Hk & Hsp & Hres);
      rewrite console_lines_emit in Hcon; rewrite spawned_emit in Hsp;
      rewrite !app_nil_r in *.
    + rewrite bind_eq, echo_step in Htry. unfold_M. simplify_eq.
      destruct (Hres out eq_refl) as [-> _].
      destruct (is_false (silent o)).
      * repeat split; simpl; [done..| | |].
        -- etrans; [|by eexists]. etrans; [|exact Hev]. by eexists.
        -- eexists. rewrite spawned_emit, app_nil_r. by repeat split.
        -- by rewrite console_lines_emit, Hcon.
      * repeat split; [done..| | |].
        -- etrans; [|exact Hev]. by eexists.
        -- eexists. by repeat split.
        -- by rewrite app_nil_r.
    + simplify_eq. repeat split; [done..| | |].
      * etrans; [|exact Hev]. by eexists.
      * exists k. by repeat split.
      * by rewrite app_nil_r.
    + simplify_eq. repeat split; [done..| | |].
      * etrans; [|exact Hev]. by eexists.
      * exists k. by repeat split.
      * by rewrite app_nil_r.
Qed.

End ExecTry.

Section ExecWhole.
Context (P : Platform).

Lemma entered_same (o : ExecOpts) (w : World) :
  environ (entered o w) = environ w /\ events (entered o w) = events w
  /\ dirs (entered o w) = dirs w
  /\ (truthy_str (dir o) = false -> entered o w = w).
Proof. unfold entered. by destruct (truthy_str (dir o)). Qed.

Lemma exec_leave_same {A} (o : ExecOpts) (original : string) (w w' : World)
    (c c' : Completion A) :
  exec_leave o original w c = (w', c') ->
  environ w' = environ w /\ events w' = events w
  /\ (truthy_str (dir o) = false -> w' = w /\ c' = c)
  /\ (c' = c \/ c' = Threw (not_found ("chdir '/" +:+ original +:+ "'"))).
Proof.
  unfold exec_leave. intros Hleave.
  destruct (truthy_str (dir o)); [destruct (dir_exists original w)|];
    simplify_eq; repeat split; auto; done.
Qed.

Lemma exec_logged_same (o : ExecOpts) (e : Val) (w : World) :
  wd (exec_logged o e w) = wd w
  /\ environ (exec_logged o e w) = environ w
  /\ events w `prefix_of` events (exec_logged o e w)
  /\ spawned (exec_logged o e w) = spawned w
  /\ console_lines (exec_logged o e w) = console_lines w.
Proof.
  unfold exec_logged. destruct (is_false (logError o)); [done|].
  rewrite spawned_emit, console_lines_emit, !app_nil_r.
  repeat split. by eexists.
Qed.

End ExecWhole.

(** X8. A string or an array of strings given to [exec]: however the call
    ends, the environment of the process is the one it had, with or without
    [env] in the options; nothing that had been logged or started before is
    taken back; and without a [dir] the working directory is not moved. *)
Theorem exec_commands_leave_process_alone (P : Platform) (o : ExecOpts)
    (w w' : World) (r : Completion string) :
  (forall f, cmd o <> CmdFunction f) ->
  exec P (InOpts o) w = (w', r) ->
  environ w' = environ w
  /\ events w `prefix_of` events w'
  /\ (truthy_str (dir o) = false -> wd w' = wd w).
Proof.
  intros Hcmd Hexec. rewrite exec_shape in Hexec.
  destruct (dir_exists (wd w) w); [|by simplify_eq].
  destruct (_ && _); [by simplify_eq|].
  destruct (entered_same o w) as (Henv0 & Hev0 & _ & Hsame0).
  destruct (exec_try P o (entered o w)) as [w1 r1] eqn:Htry.
  apply (exec_try_commands P o _ _ _ Hcmd) in Htry
    as (Hwd & Henv & Hev & _ & _).
  rewrite Henv0 in Henv. rewrite Hev0 in Hev.
  destruct r1 as [s|e|].
  - apply exec_leave_same in Hexec as (Henv' & Hev' & Hsame & _).
    rewrite Henv', Hev'. repeat split; [done..|].
    intros Hdir. destruct (Hsame Hdir) as [-> _]. by rewrite Hwd, Hsame0.
  - destruct (exec_logged_same o e w1) as (Hwd1 & Henv1 & Hev1 & _ & _).
    apply exec_leave_same in Hexec as (Henv' & Hev' & Hsame & _).
    rewrite Henv', Hev'. repeat split; [congruence|by etrans|].
    intros Hdir. destruct (Hsame Hdir) as [-> _].
    by rewrite Hwd1, Hwd, Hsame0.
  - simplify_eq. repeat split; [done..|].
    intros Hdir. by rewrite Hwd, Hsame0.
Qed.

Lemma exec_commands_leave_process_alone_witness :
  environ (exec Demo.platform (InOpts Demo.greeting) Demo.world).1
  = environ Demo.world
  /\ wd (exec Demo.platform (InOpts Demo.greeting) Demo.world).1
     = wd Demo.world.
Proof.
  destruct (exec_commands_leave_process_alone Demo.platform Demo.greeting
              Demo.world _ _ ltac:(discriminate) (surjective_pairing _))
    as (Henv & _ & Hwd).
  split; [exact Henv | by apply Hwd].
Defined.

Section StartedInOrder.
Context (P : Platform).

Lemma spawned_after (c : string) (w : World) :
  spawned (after P c w) = spawned w ++ [piped c].
Proof.
  unfold after, ran, at_spawn, spawned, emit. simpl.
  rewrite !omap_app. simpl. by rewrite app_nil_r.
Qed.

Lemma all_well_spawned (cmds : list string) (w w' : World) :
  all_well P cmds w w' -> spawned w' = spawned w ++ (piped <$> cmds).
Proof.
  induction 1 as [w | c rest w w' Hc Hrest IH]; simpl.
  - by rewrite app_nil_r.
  - by rewrite IH, spawned_after, <- app_assoc.
Qed.

Lemma all_well_last (cmds : list string) (c : string) (w w' : World) :
  all_well P (cmds ++ [c]) w w' ->
  exists w1, all_well P cmds w w1 /\ ends_well P c w1 = true.
Proof.
  revert w. induction cmds as [|c0 rest IH]; intros w Hall; simpl in Hall.
  - inversion Hall; subst. exists w. split; [constructor|done].
  - inversion Hall as [|? ? ? ? Hc0 Hrest]; subst.
    destruct (IH _ Hrest) as (w1 & Hinit & Hc).
    exists w1. split; [by constructor|done].
Qed.

(** One command string, by the way its process ends. *)
Lemma _exec_well (c : string) (w : World) :
  _exec P {| ea_cmd := ECString c; ea_env := None |} w
  = (after P c w,
     (_exec P {| ea_cmd := ECString c; ea_env := None |} w).2)
  /\ (ends_well P c w = true
      <-> exists out,
            (_exec P {| ea_cmd := ECString c; ea_env := None |} w).2
            = Returned out).
Proof.
  rewrite _exec_string. unfold after, ends_well.
  destruct (spawn P (piped c) (at_spawn c w)) as [ds [e|out err [] code|]];
    simpl; (split; [done|]); split; try done; try by eexists.
  all: by intros [? ?].
Qed.

(** The loop: every command ended well and the loop returns, or the
    commands before some command ended well, that one did not, and the loop
    ends there without returning. *)
Lemma exec_each_well (cmds out : list string) (w w' : World)
    (r : Completion (list string)) :
  exec_each P cmds out w = (w', r) ->
  (all_well P cmds w w' /\ exists res, r = Returned res)
  \/ (exists (i : nat) (c : string) (w_i : World),
        cmds !! i = Some c
        /\ all_well P (take i cmds) w w_i
        /\ ends_well P c w_i = false
        /\ w' = after P c w_i
        /\ forall res, r <> Returned res).
Proof.
  revert out w. induction cmds as [|c rest IH]; intros out w Hloop.
  - simpl in Hloop. unfold_M. simplify_eq. left. split; [constructor|by eexists].
  - simpl in Hloop. rewrite bind_eq in Hloop.
    destruct (_exec_well c w) as [Hone Hwell]. rewrite Hone in Hloop.
    destruct ((_exec P {| ea_cmd := ECString c; ea_env := None |} w).2)
      as [o|e|] eqn:Hend.
    + assert (Hc : ends_well P c w = true) by (apply Hwell; by eexists).
      apply IH in Hloop
        as [[Hall Hres] | (i & c' & w_i & Hi & Hall & Hbad & Hw' & Hr)].
      * left. split; [by constructor|done].
      * right. exists (S i), c', w_i. simpl. repeat split; try done.
        by constructor.
    + right. exists 0%nat, c, w. simpl.
      assert (Hc : ends_well P c w = false).
      { apply not_true_iff_false. intros Hc.
        apply Hwell in Hc as [? ?]. congruence. }
      simplify_eq. repeat split; try done. constructor.
    + right. exists 0%nat, c, w. simpl.
      assert (Hc : ends_well P c w = false).
      { apply not_true_iff_false. intros Hc.
        apply Hwell in Hc as [? ?]. congruence. }
      simplify_eq. repeat split; try done. constructor.
Qed.

(** The [try] block on a string or an array of strings, in the same two
    cases. *)
Lemma exec_try_well (o : ExecOpts) (w w1 : World) (r1 : Completion string) :
  (forall f, cmd o <> CmdFunction f) ->
  exec_try P o (entered o w) = (w1, r1) ->
  (exists w_end,
      all_well P (commands (cmd o)) (try_start o w) w_end
      /\ spawned w1 = spawned w ++ (piped <$> commands (cmd o))
      /\ exists s, r1 = Returned s)
  \/ (exists (i : nat) (c : string) (w_i : World),
        commands (cmd o) !! i = Some c
        /\ all_well P (take i (commands (cmd o))) (try_start o w) w_i
        /\ ends_well P c w_i = false
        /\ spawned w1 = spawned w ++ (piped <$> take (S i) (commands (cmd o)))
        /\ forall s, r1 <> Returned s).
Proof.
  intros Hcmd Htry.
  assert (Hsp0 : spawned (try_start o w) = spawned w).
  { unfold try_start, spawned.
    destruct (cmd o); simpl; rewrite omap_app, app_nil_r;
      by rewrite (proj1 (proj2 (entered_same o w))). }
  unfold exec_try in Htry. unfold try_start in *.
  destruct (cmd o) as [c|cmds|f]; [| |by destruct (Hcmd f)]; simpl commands.
  - rewrite bind_eq in Htry. unfold log at 1 in Htry.
    rewrite bind_eq in Htry.
    set (w0 := emit (EvLog "exec" TRACE "exec (string)" [LStr c]) (entered o w))
      in *.
    destruct (_exec_well c w0) as [Hone Hwell]. rewrite Hone in Htry.
    destruct ((_exec P {| ea_cmd := ECString c; ea_env := None |} w0).2)
      as [out|e|] eqn:Hend.
    + assert (Hc : ends_well P c w0 = true) by (apply Hwell; by eexists).
      rewrite bind_eq, echo_step in Htry. unfold_M. simplify_eq.
      left. exists (after P c w0). split; [|split; [|by eexists]].
      * constructor; [done|constructor].
      * destruct (is_false (silent o));
          rewrite ?spawned_emit, ?app_nil_r, spawned_after; by rewrite Hsp0.
    + assert (Hc : ends_well P c w0 = false).
      { apply not_true_iff_false. intros Hc.
        apply Hwell in Hc as [? ?]. congruence. }
      simplify_eq. right. exists 0%nat, c, w0. simpl.
      repeat split; [constructor|done| |done].
      by rewrite spawned_after, Hsp0.
    + assert (Hc : ends_well P c w0 = false).
      { apply not_true_iff_false. intros Hc.
        apply Hwell in Hc as [? ?]. congruence. }
      simplify_eq. right. exists 0%nat, c, w0. simpl.
      repeat split; [constructor|done| |done].
      by rewrite spawned_after, Hsp0.
  - rewrite bind_eq in Htry. unfold log at 1 in Htry.
    rewrite bind_eq in Htry.
    set (w0 := emit (EvLog "exec" TRACE "exec (string[])" [LStrs cmds])
                 (entered o w)) in *.
    destruct (exec_each P cmds [] w0) as [w2 r2] eqn:Hloop.
    apply exec_each_well in Hloop
      as [[Hall [res ->]] | (i & c & w_i & Hi & Hall & Hbad & -> & Hr)].
    + rewrite bind_eq, echo_step in Htry. unfold_M. simplify_eq.
      left. exists w2. split; [done|]. split; [|by eexists].
      apply all_well_spawned in Hall.
      destruct (is_false (silent o));
        rewrite ?spawned_emit, ?app_nil_r, Hall; by rewrite Hsp0.
    + right. exists i, c, w_i.
      assert (Hsp : spawned (after P c w_i)
                    = spawned w ++ (piped <$> take (S i) cmds)).
      { rewrite spawned_after, (all_well_spawned _ _ _ Hall), Hsp0.
        rewrite (take_S_r _ _ _ Hi), fmap_app, <- app_assoc. done. }
      destruct r2 as [res|e|]; [by destruct (Hr res)| |];
        simplify_eq; by repeat split.
Qed.

End StartedInOrder.

(** X9. The commands of a call are started in the order they are written,
    each at most once, and none after one that did not end well. The
    processes a call has started are those of the first [k] commands, all
    of them when the call returns. Of these, every one but the last exited
    with success, each started in the state the one before it left; the
    last is the last of the list unless it did not end well; and the call
    returns only when it ended well too. No command is started at all only
    when there is none, or when the call fails before its [try] and leaves
    the state as it was. *)
Theorem exec_starts_commands_in_order (P : Platform) (o : ExecOpts)
    (w w' : World) (r : Completion string) :
  (forall f, cmd o <> CmdFunction f) ->
  exec P (InOpts o) w = (w', r) ->
  exists k,
    (k <= length (commands (cmd o)))%nat
    /\ spawned w' = spawned w ++ (piped <$> take k (commands (cmd o)))
    /\ (forall s, r = Returned s -> k = length (commands (cmd o)))
    /\ ((0 < k)%nat ->
        exists (c : string) (w1 : World),
          commands (cmd o) !! (k - 1)%nat = Some c
          /\ all_well P (take (k - 1) (commands (cmd o))) (try_start o w) w1
          /\ (ends_well P c w1 = true -> k = length (commands (cmd o)))
          /\ (forall s, r = Returned s -> ends_well P c w1 = true))
    /\ (k = 0%nat ->
        commands (cmd o) = [] \/ exists e, (w', r) = (w, Threw e)).
Proof.
  intros Hcmd Hexec. rewrite exec_shape in Hexec.
  destruct (dir_exists (wd w) w); [destruct (_ && _)|].
  1, 3: simplify_eq; exists 0%nat; simpl; rewrite app_nil_r;
        (split; [lia|]); (split; [done|]); (split; [done|]);
        (split; [lia|]); intros _; right; by eexists.
  destruct (exec_try P o (entered o w)) as [w1 r1] eqn:Htry.
  assert (Hsp : spawned w' = spawned w1).
  { destruct r1 as [s|e|].
    - apply exec_leave_same in Hexec as (_ & Hev' & _).
      unfold spawned. by rewrite Hev'.
    - destruct (exec_logged_same o e w1) as (_ & _ & _ & Hsp1 & _).
      apply exec_leave_same in Hexec as (_ & Hev' & _).
      unfold spawned in *. by rewrite Hev', Hsp1.
    - by simplify_eq. }
  assert (Hret : forall s, r = Returned s -> exists s1, r1 = Returned s1).
  { intros s ->. destruct r1 as [s1|e|].
    - by eexists.
    - apply exec_leave_same in Hexec as (_ & _ & _ & [Hc | Hc]); discriminate.
    - by simplify_eq. }
  apply (exec_try_well P o w w1 r1 Hcmd) in Htry
    as [(w_end & Hall & Hsp1 & s1 & ->)
       | (i & c & w_i & Hi & Hall & Hbad & Hsp1 & Hr1)];
    set (cmds := commands (cmd o)) in *.
  - exists (length cmds). rewrite firstn_all. split; [lia|].
    split; [by rewrite Hsp|]. split; [done|]. split.
    + intros Hk.
      destruct (lookup_lt_is_Some_2 cmds (length cmds - 1)) as [c Hc]; [lia|].
      assert (Hsplit : cmds = take (length cmds - 1) cmds ++ [c]).
      { rewrite <- (take_drop (length cmds - 1) cmds) at 1. f_equal.
        rewrite (drop_S _ _ _ Hc), drop_ge; [done|lia]. }
      rewrite Hsplit in Hall.
      apply all_well_last in Hall as (w_last & Hinit & Hlast).
      exists c, w_last. by repeat split.
    + intros Hk. left. by apply nil_length_inv.
  - exists (S i).
    assert (Hlt : (i < length cmds)%nat) by by eapply lookup_lt_Some.
    split; [lia|]. split; [by rewrite Hsp|]. split.
    { intros s Hs. destruct (Hret s Hs) as [s1 ->]. by destruct (Hr1 s1). }
    split.
    + intros _. replace (S i - 1)%nat with i by lia.
      exists c, w_i. split; [done|]. split; [done|]. split.
      * by rewrite Hbad.
      * intros s Hs. destruct (Hret s Hs) as [s1 ->]. by destruct (Hr1 s1).
    + intros Hk. lia.
Qed.

Lemma exec_starts_commands_in_order_witness :
  exists w1,
    spawned (exec Demo.platform (InOpts Demo.in_build) Demo.world).1
    = spawned Demo.world ++ (piped <$> ["echo a"; "ls /nowhere"])
    /\ all_well Demo.platform ["echo a"]
         (try_start Demo.in_build Demo.world) w1
    /\ ends_well Demo.platform "ls /nowhere" w1 = false.
Proof.
  destruct (exec_starts_commands_in_order Demo.platform Demo.in_build
              Demo.world _ _ ltac:(discriminate) (surjective_pairing _))
    as (k & Hk & Hspawned & _ & Hlast & _).
  assert (k = 2%nat) as ->.
  { destruct k as [|[|[|k]]]; [| |done|simpl in Hk; lia];
      vm_compute in Hspawned; discriminate. }
  destruct (Hlast ltac:(lia)) as (c & w1 & Hc & Hall & _ & _).
  injection Hc as <-. exists w1. split; [exact Hspawned|]. split; [exact Hall|].
  inversion Hall as [|? ? ? ? _ Hrest]; subst. inversion Hrest; subst.
  reflexivity.
Defined.



(** X11. A function given to [exec]: the call returns only when the promise
    of the function is fulfilled, and then with the empty string, whatever
    the promise held; [exec] prints nothing for it, with [silent: false]
    too, and logs nothing after it. *)
Theorem exec_function_returns_empty (P : Platform) (o : ExecOpts)
    (f : JsFunction) (w w' : World) (s : string) :
  cmd o = CmdFunction f ->
  exec P (InOpts o) w = (w', Returned s) ->
  s = ""
  /\ exists w1 v,
       fn_call f
         (emit (EvLog "exec" TRACE "exec (function)"
                  [LCmd (ShFunction (fn_source f))]) (entered o w))
       = (w1, ReturnsPromise (Fulfilled v))
       /\ events w' = events w1.
Proof.
  intros Hcmd Hexec. rewrite exec_shape in Hexec.
  destruct (dir_exists (wd w) w); [|discriminate].
  destruct (_ && _); [discriminate|].
  unfold exec_try in Hexec. rewrite Hcmd in Hexec.
  rewrite bind_eq in Hexec. unfold log at 1 in Hexec.
  rewrite bind_eq in Hexec. unfold await_catch in Hexec.
  destruct (fn_call f _) as [w1 [e|v|[v|e|]]] eqn:Hcall.
  - apply exec_leave_same in Hexec as (_ & _ & _ & [?|?]); discriminate.
  - apply exec_leave_same in Hexec as (_ & _ & _ & [?|?]); discriminate.
  - unfold mret, M_ret, ret in Hexec.
    apply exec_leave_same in Hexec as (_ & Hev & _ & [?|?]); [|discriminate].
    simplify_eq. eauto.
  - apply exec_leave_same in Hexec as (_ & _ & _ & [?|?]); discriminate.
  - discriminate.
Qed.

Lemma exec_function_returns_empty_witness :
  (exec Demo.platform (InOpts DemoMore.quiet_work) Demo.world).2 = Returned "".
Proof.
  destruct (exec Demo.platform (InOpts DemoMore.quiet_work) Demo.world)
    as [w' [s|e|]] eqn:Hexec; [|by vm_compute in Hexec..].
  by destruct (exec_function_returns_empty Demo.platform DemoMore.quiet_work
                 _ Demo.world w' s eq_refl Hexec) as [-> _].
Defined.

(** ** The runner *)

Lemma set_level_step (on : bool) (level : string) (w : World) :
  when_ on (set_log_level level) w
  = (if on then emit (EvLogLevel level) w else w, Returned tt).
Proof. by destruct on. Qed.

(** X12. [run] without [meta] throws its message before anything else
    happens, also when no [dir] is set and whatever tasks are asked for: no
    task is looked up or run, the directory is not moved, and the only thing
    done is the assignment of the log level from the options. *)
Theorem run_needs_meta (P : Platform) (opts : RunOpts) (cli : TaskArgs)
    (w : World) :
  r_meta opts = None ->
  dir_exists (wd w) w = true ->
  run P opts cli w
  = (if negb (flag_set "log" (flags cli)) && truthy_str (r_logLevel opts)
     then emit (EvLogLevel (default "" (r_logLevel opts))) w
     else w,
     Threw (VStr "No 'meta' (import.meta.url) set on RunArgs. THis needs to be set to calculate the basedir to use for all path related operations")).
Proof.
  intros Hmeta Hcwd. unfold run.
  rewrite bind_eq, set_level_step, bind_eq. unfold Deno_cwd.
  assert (Hcwd' : forall e, dir_exists (wd (emit e w)) (emit e w) = true) by done.
  destruct (_ && _); [rewrite Hcwd'|rewrite Hcwd];
    rewrite bind_eq; unfold setWorkingDir; by rewrite Hmeta.
Qed.

Lemma run_needs_meta_witness :
  (run Demo.platform
     {| r_dir := None; r_default := None; r_logLevel := None;
        r_tasks := Demo.tasks; r_meta := None |}
     (Demo.cli ["build"]) Demo.world).1
  = Demo.world.
Proof.
  by rewrite (run_needs_meta Demo.platform
                {| r_dir := None; r_default := None; r_logLevel := None;
                   r_tasks := Demo.tasks; r_meta := None |}
                (Demo.cli ["build"]) Demo.world eq_refl eq_refl).
Defined.

(** X13. The only errors [runTasks] throws are its own: whatever a task
    throws or rejects with, what leaves the batch is the string that names
    one of the requested tasks, by the name it was looked up under. The
    error of the task itself reaches the logger, never the caller. *)
Theorem runTasks_throws_task_failures_only
    (userTasks builtinsTasks : NamedTasks) (tasksToRun : list string)
    (taskArgs : list (string * Val)) (w w' : World) (e : Val) :
  runTasks userTasks builtinsTasks tasksToRun taskArgs w = (w', Threw e) ->
  exists requested,
    requested ∈ tasksToRun
    /\ e = VStr ("Task '" +:+ lookup_name requested +:+ " threw an error").
Proof.
  revert w. induction tasksToRun as [|requested rest IH]; intros w Hrun.
  - discriminate.
  - simpl in Hrun.
    destruct (find_task userTasks builtinsTasks (lookup_name requested))
      as [task|]; [|discriminate].
    rewrite bind_eq in Hrun.
    destruct (run_task (lookup_name requested) task taskArgs w)
      as [w1 [[]|e1|]] eqn:Htask.
    + destruct (IH _ Hrun) as (name & Hin & ->).
      exists name. split; [by right|done].
    + simplify_eq. exists requested. split; [by left|].
      unfold run_task, await_catch in Htask. unfold_M.
      by repeat case_match; simplify_eq.
    + discriminate.
Qed.

Lemma runTasks_throws_task_failures_only_witness :
  exists requested,
    requested ∈ ["build"; "deploy"; "lint"]
    /\ VStr "Task 'deploy threw an error"
       = VStr ("Task '" +:+ lookup_name requested +:+ " threw an error").
Proof.
  apply (runTasks_throws_task_failures_only Demo.tasks ∅
           ["build"; "deploy"; "lint"] [] Demo.world
           (runTasks Demo.tasks ∅ ["build"; "deploy"; "lint"] [] Demo.world).1).
  reflexivity.
Defined.

(** X14. Help is what [run] does when [--help] is given, whatever tasks are
    named beside it, and when no task is named and no default is set. With
    [meta] there, no [dir] and no user task under [_help] or [task__help],
    [run] then returns, prints the one help text and leaves the working
    directory where it was. *)
Theorem run_prints_help (P : Platform) (opts : RunOpts) (cli : TaskArgs)
    (meta : Meta) (w : World) :
  flag_set "help" (flags cli) = true
  \/ (positional cli = [] /\ truthy_str (r_default opts) = false) ->
  r_meta opts = Some meta ->
  truthy_str (r_dir opts) = false ->
  r_tasks opts !! "_help" = None ->
  r_tasks opts !! "task__help" = None ->
  dir_exists (wd w) w = true ->
  exists w',
    run P opts cli w = (w', Returned tt)
    /\ wd w' = wd w
    /\ console_lines w' = console_lines w ++ [help_text opts].
Proof.
  intros Hhelp Hmeta Hdir Hexact Hprefixed Hcwd. unfold run.
  assert (Htasks :
            (if flag_set "help" (flags cli) then ["_help"]
             else match positional cli with
                  | [] => [if truthy_str (r_default opts)
                           then default "" (r_default opts) else "_help"]
                  | _ :: _ => positional cli
                  end) = ["_help"]).
  { destruct Hhelp as [-> | [-> ->]]; [done|by destruct (flag_set _ _)]. }
  rewrite Htasks. clear Htasks Hhelp.
  rewrite bind_eq, set_level_step.
  set (w0 := if _ && _ then _ else w).
  assert (Hw0 : wd w0 = wd w /\ dirs w0 = dirs w
                /\ console_lines w0 = console_lines w).
  { subst w0. destruct (_ && _); [|done].
    by rewrite console_lines_emit, app_nil_r. }
  destruct Hw0 as (Hwd0 & Hdirs0 & Hcon0). clearbody w0.
  rewrite bind_eq. unfold Deno_cwd.
  assert (Hcwd0 : dir_exists (wd w0) w0 = true).
  { unfold dir_exists in *. by rewrite Hwd0, Hdirs0. }
  rewrite Hcwd0, bind_eq. unfold setWorkingDir. rewrite Hmeta, Hdir.
  cbn [negb]. unfold mret at 1, M_ret, ret.
  unfold try_finally. cbn [runTasks].
  change (lookup_name "_help") with "_help".
  rewrite find_task_cases by done. change ("task_" +:+ "_help") with "task__help".
  rewrite Hexact, Hprefixed.
  unfold newBuiltinsTasks. rewrite lookup_insert_ne by done.
  rewrite lookup_singleton_eq.
  rewrite bind_eq. unfold run_task. rewrite bind_eq. unfold log at 1.
  unfold try_catch. rewrite bind_eq.
  unfold await_catch, async, console_log. cbn [task_call].
  unfold mret, M_ret, ret. rewrite chdir_absolute.
  match goal with |- context [dir_exists (wd w0) ?w2] =>
    assert (Hback : dir_exists (wd w0) w2 = true)
      by (unfold dir_exists in *; simpl; by rewrite Hdirs0 in *)
  end.
  rewrite Hback. eexists. split; [reflexivity|]. split; [done|].
  unfold console_lines in *. simpl. rewrite !omap_app. simpl.
  by rewrite app_nil_r, Hcon0.
Qed.

Lemma run_prints_help_witness :
  exists w',
    run Demo.platform DemoMore.no_default (Demo.cli []) Demo.world
    = (w', Returned tt)
    /\ wd w' = wd Demo.world
    /\ console_lines w'
       = console_lines Demo.world ++ [help_text DemoMore.no_default].
Proof.
  eapply (run_prints_help Demo.platform DemoMore.no_default (Demo.cli []));
    try reflexivity.
  right. split; reflexivity.
Defined.

Lemma level_assignments_emit (e : Event) (w : World) :
  level_assignments (emit e w)
  = level_assignments w ++ match e with EvLogLevel l => [l] | _ => [] end.
Proof.
  unfold level_assignments, emit. simpl. rewrite omap_app. simpl.
  by destruct e.
Qed.

Lemma init_levels_assignments (levels : list string)
    (taskArgs : list (string * Val)) (w : World) :
  exists w',
    init_levels levels taskArgs w = (w', Returned tt)
    /\ level_assignments w'
       = level_assignments w
         ++ List.filter (fun level => flag_set level taskArgs) levels.
Proof.
  revert w. induction levels as [|level rest IH]; intros w; simpl.
  - exists w. by rewrite app_nil_r.
  - rewrite bind_eq, set_level_step.
    destruct (flag_set level taskArgs).
    + destruct (IH (emit (EvLogLevel level) w)) as (w' & -> & Hlevels).
      exists w'. split; [done|].
      by rewrite Hlevels, level_assignments_emit, <- app_assoc.
    + destruct (IH w) as (w' & -> & Hlevels). by exists w'.
Qed.

(** X15. [init] never fails, and the level that stands after it is the one
    it assigned last. [--log] is assigned after the level flags, so it wins
    over all of them. Without [--log], the level flags are gone through in
    the order error, warn, info, debug, trace: of several that are given,
    the most verbose wins, and with none given no level is assigned. *)
Theorem init_level_precedence (taskArgs : list (string * Val)) (w : World) :
  exists w',
    init taskArgs w = (w', Returned tt)
    /\ (forall l, flag_value "log" taskArgs = VStr l -> l <> "" ->
          last (level_assignments w') = Some l)
    /\ (flag_set "log" taskArgs = false ->
          level_assignments w'
          = level_assignments w
            ++ List.filter (fun level => flag_set level taskArgs)
                 ["error"; "warn"; "info"; "debug"; "trace"])
    /\ (flag_set "log" taskArgs = false -> flag_set "trace" taskArgs = true ->
          last (level_assignments w') = Some "trace").
Proof.
  unfold init. rewrite bind_eq.
  destruct (init_levels_assignments level_flags taskArgs w)
    as (w1 & -> & Hlevels).
  rewrite set_level_step. eexists. split; [done|].
  split; [|split].
  - intros l Hlog Hl.
    assert (Hset : flag_set "log" taskArgs = true).
    { unfold flag_set, flag_value in *.
      destruct (list_find _ taskArgs) as [[i kv]|]; [|done].
      rewrite Hlog. simpl. by destruct l. }
    rewrite Hset, level_assignments_emit, Hlog. apply last_snoc.
  - intros ->. exact Hlevels.
  - intros -> Htrace. rewrite Hlevels. unfold level_flags. simpl.
    rewrite Htrace.
    destruct (flag_set "error" taskArgs), (flag_set "warn" taskArgs),
      (flag_set "info" taskArgs), (flag_set "debug" taskArgs);
      rewrite last_app; reflexivity.
Qed.

Lemma init_level_precedence_witness :
  last (level_assignments
          (init [("debug", VBool true); ("log", VStr "warn");
                 ("trace", VBool true)] Demo.world).1)
  = Some "warn"
  /\ last (level_assignments
             (init [("trace", VBool true); ("error", VBool true)]
                Demo.world).1)
     = Some "trace".
Proof.
  split.
  - destruct (init_level_precedence
                [("debug", VBool true); ("log", VStr "warn");
                 ("trace", VBool true)] Demo.world)
      as (w' & Hinit & Hlog & _).
    rewrite Hinit. by apply Hlog.
  - destruct (init_level_precedence
                [("trace", VBool true); ("error", VBool true)] Demo.world)
      as (w' & Hinit & _ & _ & Htrace).
    rewrite Hinit. by apply Htrace.
Defined.

(** ** util.ts *)

Section Strings.

Lemma string_app_cons (c : ascii) (s t : string) :
  String c s +:+ t = String c (s +:+ t).
Proof. reflexivity. Qed.

Lemma string_app_nil_l (t : string) : "" +:+ t = t.
Proof. reflexivity. Qed.

Lemma string_app_nil_r (s : string) : s +:+ "" = s.
Proof.
  induction s as [|c s IH]; [done|]. by rewrite string_app_cons, IH.
Qed.

Lemma string_app_assoc (a b c : string) : (a +:+ b) +:+ c = a +:+ (b +:+ c).
Proof.
  induction a as [|x a IH]; [done|]. by rewrite !string_app_cons, IH.
Qed.

Lemma string_length_app (a b : string) :
  String.length (a +:+ b) = (String.length a + String.length b)%nat.
Proof.
  induction a as [|x a IH]; [done|].
  rewrite string_app_cons. simpl. by rewrite IH.
Qed.

Lemma rev_app_spec (s acc : string) :
  String.rev_app s acc = String.rev s +:+ acc.
Proof.
  unfold String.rev. revert acc.
  induction s as [|c s IH]; intros acc; simpl; [done|].
  rewrite (IH (String c acc)), (IH (String c "")).
  by rewrite string_app_assoc.
Qed.

Lemma rev_cons (c : ascii) (s : string) :
  String.rev (String c s) = String.rev s +:+ String c "".
Proof. unfold String.rev at 1. simpl. apply rev_app_spec. Qed.

Lemma rev_app (x y : string) :
  String.rev (x +:+ y) = String.rev y +:+ String.rev x.
Proof.
  induction x as [|c x IH].
  - by rewrite string_app_nil_l, string_app_nil_r.
  - by rewrite string_app_cons, !rev_cons, IH, string_app_assoc.
Qed.

Lemma rev_snoc (s : string) (c : ascii) :
  String.rev (s +:+ String c "") = String c (String.rev s).
Proof. by rewrite rev_app. Qed.

Lemma rev_involutive (s : string) : String.rev (String.rev s) = s.
Proof.
  induction s as [|c s IH]; [done|]. by rewrite rev_cons, rev_snoc, IH.
Qed.

Lemma prefix_app (a b : string) : String.prefix a (a +:+ b) = true.
Proof.
  induction a as [|c a IH]; [by destruct b|].
  rewrite string_app_cons. simpl. by destruct (ascii_dec c c).
Qed.

Lemma prefix_one_char (a b : ascii) (s : string) :
  String.prefix (String a "") (String b s)
  = if ascii_dec a b then true else false.
Proof.
  change (String.prefix (String a "") (String b s))
    with (if ascii_dec a b then String.prefix "" s else false).
  destruct (ascii_dec a b); [by destruct s | done].
Qed.

Lemma substring_0_app (a b : string) :
  String.substring 0 (String.length a) (a +:+ b) = a.
Proof.
  induction a as [|c a IH]; [by destruct b|].
  rewrite string_app_cons. simpl. by rewrite IH.
Qed.

Lemma ends_with_app (a b : string) : Util.ends_with b (a +:+ b) = true.
Proof. unfold Util.ends_with. rewrite rev_app. apply prefix_app. Qed.

Lemma trim_start_spaces (indent rest : string) :
  Forall (fun c => Util.is_space c = true) (String.list_ascii_of_string indent) ->
  Util.trim_start (indent +:+ rest) = Util.trim_start rest.
Proof.
  induction indent as [|c indent IH]; [done|].
  rewrite string_app_cons. simpl.
  intros Hall. inversion Hall as [|? ? Hc Hrest]; subst.
  rewrite Hc. by apply IH.
Qed.

(** A string that starts and ends with something else than white space is
    its own trimming. *)
Lemma trim_solid (first last : ascii) (middle : string) :
  Util.is_space first = false -> Util.is_space last = false ->
  Util.trim (String first (middle +:+ String last ""))
  = String first (middle +:+ String last "").
Proof.
  intros Hfirst Hlast. unfold Util.trim. simpl Util.trim_start at 2.
  rewrite Hfirst.
  rewrite <- (string_app_cons first middle), rev_snoc.
  simpl Util.trim_start. rewrite Hlast.
  by rewrite <- rev_snoc, rev_involutive.
Qed.

End Strings.

Lemma rightPad_loop_spec (pad : string) (size : nat) :
  pad <> "" ->
  forall (fuel : nat) (s : string),
    (size - String.length s <= fuel)%nat ->
    exists k : nat,
      Util.rightPad_loop fuel s pad size = s +:+ copies k pad
      /\ (size <= String.length s + k * String.length pad)%nat
      /\ (forall j : nat, (j < k)%nat ->
            (String.length s + j * String.length pad < size)%nat).
Proof.
  intros Hpad.
  assert (Hlen : (1 <= String.length pad)%nat).
  { destruct pad; [done | simpl; lia]. }
  induction fuel as [|fuel IH]; intros s Hfuel.
  - exists 0%nat. simpl. rewrite string_app_nil_r.
    split; [done|]. split; [lia|]. intros j Hj. lia.
  - simpl. destruct (Nat.ltb_spec (String.length s) size) as [Hlt|Hge].
    + destruct (IH (s +:+ pad)) as (k & Hloop & Hsize & Hmin).
      { rewrite string_length_app. lia. }
      exists (S k). rewrite Hloop. rewrite string_length_app in Hsize, Hmin.
      split; [by rewrite string_app_assoc|]. split; [lia|].
      intros [|j] Hj; [lia|]. specialize (Hmin j). lia.
    + exists 0%nat. simpl. rewrite string_app_nil_r.
      split; [done|]. split; [lia|]. intros j Hj. lia.
Qed.

(** X16. rightPad: with a pad string that is not empty, the result is the
    given string followed by copies of the pad; their number is the least
    one that brings the length to [size] or more (none when the string is
    that long already), so with a pad of one character the result has
    length [max (length s) size]. *)
Theorem rightPad_adds_fewest_copies (s pad : string) (size : nat) :
  pad <> "" ->
  exists k : nat,
    Util.rightPad s size pad = s +:+ copies k pad
    /\ (size <= String.length (Util.rightPad s size pad))%nat
    /\ (forall j : nat, (j < k)%nat ->
          (String.length (s +:+ copies j pad) < size)%nat)
    /\ (String.length pad = 1%nat ->
        String.length (Util.rightPad s size pad)
        = Nat.max (String.length s) size).
Proof.
  intros Hpad.
  destruct (rightPad_loop_spec pad size Hpad size s) as (k & Hloop & Hsize & Hmin);
    [lia|].
  assert (Hcopies : forall j, String.length (copies j pad)
                              = (j * String.length pad)%nat).
  { induction j as [|j IHj]; [done|].
    simpl. rewrite string_length_app, IHj. lia. }
  exists k. unfold Util.rightPad. rewrite Hloop.
  split; [done|]. rewrite string_length_app, Hcopies.
  split; [lia|]. split.
  - intros j Hj. rewrite string_length_app, Hcopies. by apply Hmin.
  - intros Hone. rewrite Hone in *.
    destruct k as [|k]; [lia|].
    specialize (Hmin k). lia.
Qed.

Lemma rightPad_adds_fewest_copies_witness :
  exists k : nat,
    Util.rightPad "build" 8 "ab" = "build" +:+ copies k "ab"
    /\ (8 <= String.length (Util.rightPad "build" 8 "ab"))%nat
    /\ (forall j : nat, (j < k)%nat ->
          (String.length ("build" +:+ copies j "ab") < 8)%nat)
    /\ (String.length "ab" = 1%nat ->
        String.length (Util.rightPad "build" 8 "ab")
        = Nat.max (String.length "build") 8).
Proof. apply (rightPad_adds_fewest_copies "build" "ab" 8). discriminate. Defined.

Lemma delim_is_no_space (q : ascii) :
  Util.is_comment_delim q = true ->
  Util.is_space q = false /\ q <> ";"%char.
Proof.
  unfold Util.is_comment_delim, Util.is_space. intros Hq.
  apply orb_true_iff in Hq as [Hq|Hq];
    [apply orb_true_iff in Hq as [Hq|Hq]|];
    apply N.eqb_eq in Hq; (split; [by rewrite Hq | intros ->; done]).
Qed.

Lemma docs_scan_skip (before : list string) :
  Forall (fun l => opens_docs l = false) before ->
  forall (limit : nat) (rest : list string),
    Util.docs_scan (length before + limit) (before ++ rest)
    = Util.docs_scan limit rest.
Proof.
  induction 1 as [|l before Hl Hbefore IH]; intros limit rest; [done|].
  simpl. unfold opens_docs in Hl.
  destruct (Util.trim l) as [|c t]; [apply IH|].
  rewrite Hl. apply IH.
Qed.

(** X17. extractFunctionDocs looks for the opening quote in the first four
    lines of the source text only: when none of them opens a doc string,
    there is no documentation, whatever the later lines hold. *)
Theorem docs_open_in_first_four_lines (source : string) :
  Forall (fun l => opens_docs l = false) (take 4 (Util.split_lines source)) ->
  Util.extractFunctionDocs source = None.
Proof.
  unfold Util.extractFunctionDocs.
  generalize (Util.split_lines source) 4%nat. intros lines limit.
  revert lines. induction limit as [|limit IH]; intros lines Hnone.
  - by destruct lines.
  - destruct lines as [|l rest]; [done|].
    simpl in Hnone. inversion Hnone as [|? ? Hl Hrest]; subst.
    simpl. unfold opens_docs in Hl.
    destruct (Util.trim l) as [|c t]; [by apply IH|].
    rewrite Hl. by apply IH.
Qed.

Lemma docs_open_in_first_four_lines_witness :
  Util.extractFunctionDocs
    ("async function () {" +:+ nl +:+ nl +:+ "  // build" +:+ nl
     +:+ "  const a = 1" +:+ nl +:+ "  'Build the project'" +:+ nl +:+ "}")
  = None.
Proof.
  apply docs_open_in_first_four_lines.
  vm_compute. repeat constructor.
Defined.

(** X18. extractFunctionDocs: a doc string that opens and closes on one of
    the first four lines (white space before it, the same quote at both
    ends, a semicolon after it or not) is returned without its quotes and
    semicolon, when no earlier line opens a doc string. *)
Theorem one_line_docs_are_unquoted
    (source indent text semi : string) (q : ascii) (before after : list string) :
  Util.split_lines source
  = before ++ (indent +:+ String q (text +:+ String q semi)) :: after ->
  (length before < 4)%nat ->
  Forall (fun l => opens_docs l = false) before ->
  Forall (fun c => Util.is_space c = true) (String.list_ascii_of_string indent) ->
  Util.is_comment_delim q = true ->
  semi = "" \/ semi = ";" ->
  Util.extractFunctionDocs source = Some text.
Proof.
  intros Hlines Hlen Hbefore Hindent Hq Hsemi.
  destruct (delim_is_no_space q Hq) as [Hspace Hne].
  unfold Util.extractFunctionDocs. rewrite Hlines.
  replace 4%nat with (length before + S (3 - length before))%nat by lia.
  rewrite docs_scan_skip by done.
  set (l := indent +:+ String q (text +:+ String q semi)).
  assert (Htrim : Util.trim l = String q (text +:+ String q semi)).
  { unfold l, Util.trim. rewrite trim_start_spaces by done.
    fold (Util.trim (String q (text +:+ String q semi))).
    destruct Hsemi as [-> | ->].
    - by apply trim_solid.
    - change (String q ";") with (String q "" +:+ ";").
      rewrite <- string_app_assoc. by apply trim_solid. }
  assert (Hends : Util.ends_with (String q ";") (Util.trim l)
                  || Util.ends_with (String q "") (Util.trim l) = true).
  { rewrite Htrim. apply orb_true_iff.
    destruct Hsemi as [-> | ->]; [right | left];
      rewrite <- (string_app_cons q text); apply ends_with_app. }
  cbn [Util.docs_scan]. rewrite Htrim, Hq.
  cbn [Util.docs_until]. rewrite Hends.
  change (String.concat nl ([] ++ [l])) with l. rewrite Htrim.
  f_equal. destruct Hsemi as [-> | ->].
  - replace (Util.ends_with ";" (String q (text +:+ String q ""))) with false.
    + cbn [String.length String.substring].
      rewrite string_length_app. cbn [String.length].
      replace (S (String.length text + 1) - 2)%nat with (String.length text)
        by lia.
      apply substring_0_app.
    + symmetry. unfold Util.ends_with.
      rewrite <- (string_app_cons q text), rev_snoc.
      change (String.rev ";") with ";". rewrite prefix_one_char.
      destruct (ascii_dec ";" q) as [Heq|]; [exfalso; by apply Hne | done].
  - change (String q ";") with (String q "" +:+ ";").
    rewrite <- string_app_assoc, <- (string_app_cons q).
    set (quoted := String q (text +:+ String q "")).
    rewrite ends_with_app, string_length_app.
    replace (String.length quoted + String.length ";" - 1)%nat
      with (String.length quoted) by (simpl; lia).
    rewrite substring_0_app. unfold quoted.
    cbn [String.length String.substring].
    rewrite string_length_app. cbn [String.length].
    replace (S (String.length text + 1) - 2)%nat with (String.length text)
      by lia.
    apply substring_0_app.
Qed.

Lemma one_line_docs_are_unquoted_witness :
  Util.extractFunctionDocs
    ("async function (ctxt) {" +:+ nl +:+ "    'Build it';" +:+ nl +:+ "}")
  = Some "Build it".
Proof.
  apply (one_line_docs_are_unquoted _ "    " "Build it" ";" "'"%char
           ["async function (ctxt) {"] ["}"]).
  - vm_compute. reflexivity.
  - simpl. lia.
  - vm_compute. repeat constructor.
  - vm_compute. repeat constructor.
  - reflexivity.
  - by right.
Defined.

Lemma substring_0_all (s : string) (m : nat) :
  (String.length s <= m)%nat -> String.substring 0 m s = s.
Proof.
  revert m. induction s as [|c s IH]; intros [|m] Hm; simpl in *;
    [done | done | lia |].
  rewrite IH; [done | lia].
Qed.

Lemma leb_is_total : Total (fun a b : string => Is_true (String.leb a b)).
Proof.
  intros a b. destruct (String.leb_total a b) as [H|H];
    [left | right]; by apply Is_true_true.
Qed.

(** X19. printTasks pushes one line per task of the registry, by ascending
    key; the line of a key holds the name padded to 25 characters and the doc
    string found in the task's source text, and a key [task_<name>] is shown
    as [<name>]. *)
Theorem printTasks_lists_every_task (tasks : gmap string string) :
  length (Util.printTasks tasks) = size tasks
  /\ (exists keys : list string,
        keys ≡ₚ (map_to_list tasks).*1
        /\ Sorted (fun a b : string => Is_true (String.leb a b)) keys
        /\ Forall2
             (fun key line =>
                exists source, tasks !! key = Some source
                               /\ line = task_line key source)
             keys (Util.printTasks tasks))
  /\ (forall name : string, shown_name ("task_" +:+ name) = name).
Proof.
  set (R := fun a b : string => Is_true (String.leb a b)).
  assert (Hperm : merge_sort R (map_to_list tasks).*1
                  ≡ₚ (map_to_list tasks).*1)
    by apply merge_sort_Permutation.
  split; [|split].
  - unfold Util.printTasks. fold R.
    by rewrite length_fmap, Hperm, length_fmap, length_map_to_list.
  - exists (merge_sort R (map_to_list tasks).*1).
    split; [done|]. split; [apply Sorted_merge_sort, leb_is_total|].
    unfold Util.printTasks. fold R.
    apply Forall2_fmap_r, Forall_Forall2_diag, Forall_forall.
    intros key Hkey. rewrite Hperm in Hkey.
    apply list_elem_of_fmap in Hkey as ([key' source] & -> & Hin).
    apply elem_of_map_to_list in Hin. simpl.
    exists source. by rewrite Hin.
  - intros name. unfold shown_name. rewrite prefix_app.
    change (String.substring 5 (String.length ("task_" +:+ name))
              ("task_" +:+ name))
      with (String.substring 0 (5 + String.length name) name).
    apply substring_0_all. lia.
Qed.

(** ** logger.ts *)

Section LoggerFacts.
Import Logger.

Lemma level_from_fuel (h : Heap) :
  parents_older h ->
  forall (n r f1 f2 : nat),
    (r <= n)%nat -> (r <= f1)%nat -> (r <= f2)%nat ->
    level_from f1 h r = level_from f2 h r.
Proof.
  intros Hwf. induction n as [|n IH]; intros r f1 f2 Hn H1 H2.
  - assert (r = 0%nat) as -> by lia.
    destruct f1, f2; simpl; destruct (h !! 0%nat) as [l|] eqn:Hl; try done;
      destruct (_level l); try done;
      destruct (parent l) as [p|] eqn:Hp; try done;
      specialize (Hwf _ _ _ Hl Hp); lia.
  - destruct f1 as [|f1], f2 as [|f2]; simpl;
      destruct (h !! r) as [l|] eqn:Hl; try done;
      destruct (_level l); try done;
      destruct (parent l) as [p|] eqn:Hp; try done;
      specialize (Hwf _ _ _ Hl Hp); try lia.
    apply IH; lia.
Qed.

Lemma level_unfold (h : Heap) (r : nat) (l : LoggerImpl) :
  parents_older h -> h !! r = Some l ->
  level h r = match _level l with
              | Some v => v
              | None => match parent l with
                        | Some p => level h p
                        | None => Lvl OFF
                        end
              end.
Proof.
  intros Hwf Hl. unfold level.
  destruct r as [|r]; simpl; rewrite Hl; destruct (_level l); try done;
    destruct (parent l) as [p|] eqn:Hp; try done;
    pose proof (Hwf _ _ _ Hl Hp) as Hlt; [lia|].
  apply (level_from_fuel h Hwf r); lia.
Qed.

Lemma level_dangling (h : Heap) (r : nat) :
  h !! r = None -> level h r = Lvl OFF.
Proof. intros Hl. unfold level. destruct r; simpl; by rewrite Hl. Qed.

Lemma parents_older_alter (f : LoggerImpl -> LoggerImpl) (r : nat) (h : Heap) :
  (forall l, parent (f l) = parent l) ->
  parents_older h -> parents_older (alter f r h).
Proof.
  intros Hf Hwf q p l Hl Hp.
  destruct (decide (q = r)) as [->|Hne].
  - rewrite list_lookup_alter_eq in Hl.
    destruct (h !! r) as [l0|] eqn:Hl0; [|done].
    simpl in Hl. injection Hl as <-. rewrite Hf in Hp. by apply (Hwf r p l0).
  - rewrite list_lookup_alter_ne in Hl by done. by apply (Hwf q p l).
Qed.

Lemma parents_older_child (h : Heap) (l : LoggerImpl) (r : nat) :
  parent l = Some r -> (r < length h)%nat ->
  parents_older h -> parents_older (h ++ [l]).
Proof.
  intros Hparent Hr Hwf q p l' Hl Hp.
  apply lookup_app_Some in Hl as [Hl | [Hlen Hl]].
  - by apply (Hwf q p l').
  - apply list_lookup_singleton_Some in Hl as [Hq <-].
    rewrite Hparent in Hp. injection Hp as <-. lia.
Qed.

Lemma factory_heap_new : factory_heap LoggerFactory_new.
Proof.
  split; [|split].
  - intros [|r] p l Hl Hp; [|done]. injection Hl as <-. done.
  - by eexists.
  - intros [|r] l Hl Hr; done.
Qed.

Lemma factory_heap_alter (f : LoggerImpl -> LoggerImpl) (r : nat) (h : Heap) :
  (forall l, parent (f l) = parent l) ->
  (forall l, appender (f l) = appender l) ->
  factory_heap h -> factory_heap (alter f r h).
Proof.
  intros Hparent Happender (Hwf & (root & Hroot & Hholds) & Hothers).
  split; [by apply parents_older_alter|]. split.
  - destruct (decide (rootLogger = r)) as [<-|Hne].
    + exists (f root). rewrite list_lookup_alter_eq, Hroot.
      by rewrite Happender.
    + exists root. by rewrite list_lookup_alter_ne.
  - intros q l Hl Hq. destruct (decide (q = r)) as [->|Hne].
    + rewrite list_lookup_alter_eq in Hl.
      destruct (h !! r) as [l0|] eqn:Hl0; [|done].
      simpl in Hl. injection Hl as <-. rewrite Hparent. by apply (Hothers r).
    + rewrite list_lookup_alter_ne in Hl by done. by apply (Hothers q).
Qed.

Lemma factory_heap_set_level (lv : Level) (r : nat) (h : Heap) :
  factory_heap h -> factory_heap (LoggerImpl_set_level lv r h).
Proof. by apply factory_heap_alter. Qed.

Lemma factory_heap_set_rootName (rootName : string) (h : Heap) :
  factory_heap h -> factory_heap (LoggerFactory_set_rootName rootName h).
Proof. by apply factory_heap_alter. Qed.

Lemma factory_heap_getLogger (childName : string) (relative : option bool)
    (r : nat) (h : Heap) :
  (r < length h)%nat ->
  factory_heap h ->
  factory_heap (LoggerImpl_getLogger childName relative r h).1.
Proof.
  intros Hr (Hwf & (root & Hroot & Hholds) & Hothers). simpl.
  split; [by apply (parents_older_child h _ r)|]. split.
  - exists root. split; [|done]. by apply lookup_app_l_Some.
  - intros q l Hl Hq.
    apply lookup_app_Some in Hl as [Hl | [Hlen Hl]].
    + by apply (Hothers q).
    + apply list_lookup_singleton_Some in Hl as [_ <-]. by eexists.
Qed.

(** X20. The level of a logger is read through its parents at the time it is
    asked for. Setting the level of a logger [p] therefore gives that level
    to [p] and to every logger below it that is reached from [p] without
    passing a logger with a level of its own, loggers made before the change
    included; every other logger keeps the level it had. *)
Theorem level_change_reaches_heirs (h : Heap) (p : nat) (lv : Level) :
  parents_older h ->
  forall q : nat,
    (takes_level_from h q p ->
     level (LoggerImpl_set_level lv p h) q = level_value lv)
    /\ (~ takes_level_from h q p ->
        level (LoggerImpl_set_level lv p h) q = level h q).
Proof.
  intros Hwf.
  assert (Hwf' : parents_older (LoggerImpl_set_level lv p h))
    by by apply parents_older_alter.
  intros q. split.
  - induction 1 as [p l Hl | q q' p l Hl Hne Hnone Hparent Htakes IH].
    + erewrite level_unfold; [|done|].
      2:{ unfold LoggerImpl_set_level. rewrite list_lookup_alter_eq, Hl. done. }
      done.
    + erewrite level_unfold; [|by apply parents_older_alter|].
      2:{ unfold LoggerImpl_set_level.
          rewrite list_lookup_alter_ne by done. exact Hl. }
      rewrite Hnone, Hparent. by apply IH.
  - induction (lt_wf q) as [q _ IH]. intros Hnot.
    destruct (h !! q) as [l|] eqn:Hl.
    + assert (Hne : q <> p).
      { intros ->. apply Hnot. by eapply takes_here. }
      assert (Hl' : LoggerImpl_set_level lv p h !! q = Some l).
      { unfold LoggerImpl_set_level. by rewrite list_lookup_alter_ne. }
      rewrite (level_unfold _ q l Hwf' Hl'), (level_unfold h q l Hwf Hl).
      destruct (_level l) eqn:Hown; [done|].
      destruct (parent l) as [q'|] eqn:Hparent; [|done].
      apply IH; [by apply (Hwf q q' l)|].
      intros Htakes. apply Hnot. by eapply takes_above.
    + rewrite !level_dangling; [done | done |].
      unfold LoggerImpl_set_level.
      destruct (decide (q = p)) as [->|Hne].
      * by rewrite list_lookup_alter_eq, Hl.
      * by rewrite list_lookup_alter_ne.
Qed.

Lemma factory_heap_root (h : Heap) :
  factory_heap h -> (rootLogger < length h)%nat.
Proof.
  intros (_ & (root & Hroot & _) & _). by eapply lookup_lt_Some.
Qed.

Lemma factory_heap_export (loggerName : string) (relative : option bool)
    (h : Heap) :
  factory_heap h -> factory_heap (getLogger loggerName relative h).1.
Proof.
  intros Hheap. apply factory_heap_getLogger; [|done].
  by apply factory_heap_root.
Qed.

Lemma loggers_factory_heap : factory_heap DemoMore.loggers.
Proof.
  apply factory_heap_set_level.
  do 2 apply factory_heap_export.
  apply factory_heap_new.
Qed.

Lemma level_change_reaches_heirs_witness :
  level (LoggerImpl_set_level (ByName "TRACE") 0 DemoMore.loggers) 1 = Lvl TRACE
  /\ level (LoggerImpl_set_level (ByName "TRACE") 0 DemoMore.loggers) 2
     = Lvl DEBUG.
Proof.
  pose proof (level_change_reaches_heirs DemoMore.loggers 0 (ByName "TRACE")
                (proj1 loggers_factory_heap)) as Hlevels.
  split.
  - apply (proj1 (Hlevels 1%nat)).
    eapply takes_above; [reflexivity | done | reflexivity | reflexivity |].
    eapply takes_here. reflexivity.
  - rewrite (proj2 (Hlevels 2%nat)); [reflexivity|].
    intros Htakes. inversion Htakes as [|? ? ? l Hl ? Hnone]; subst.
    injection Hl as <-. discriminate Hnone.
Defined.

Lemma logEvent_reaches_console {A : Type} (h : Heap) (event : LogEvent A)
    (console : list (ConsoleCall A)) :
  factory_heap h ->
  forall (n r fuel : nat),
    (r <= n)%nat -> (r <= fuel)%nat -> (r < length h)%nat ->
    logEvent_from fuel h r event console = append event console.
Proof.
  intros (Hwf & (root & Hroot & Hholds) & Hothers).
  induction n as [|n IH]; intros r fuel Hn Hfuel Hr.
  - assert (r = 0%nat) as -> by lia.
    unfold rootLogger in Hroot.
    destruct fuel; cbn [logEvent_from]; by rewrite Hroot, Hholds.
  - destruct (lookup_lt_is_Some_2 h r Hr) as [l Hl].
    destruct (decide (r = rootLogger)) as [->|Hne].
    { unfold rootLogger in *.
      destruct fuel; cbn [logEvent_from]; by rewrite Hroot, Hholds. }
    destruct (Hothers r l Hl Hne) as [p Hp].
    pose proof (Hwf r p l Hl Hp) as Hlt.
    destruct fuel as [|fuel]; [lia|].
    cbn [logEvent_from]. rewrite Hl, Hp. destruct (appender l); [done|].
    apply IH; lia.
Qed.

Lemma append_one {A : Type} (event : LogEvent A)
    (console : list (ConsoleCall A)) :
  append event console
  = console ++ [ {| stream := if (level_number (ev_level event) <? 5)%Z
                              then Out else Err;
                    line := format event;
                    further := args event |} ].
Proof.
  unfold append. change (level_number ERROR) with 5.
  destruct (level_number (ev_level event) <? 5)%Z; [|done].
  destruct (args event); done.
Qed.

Lemma log_reaches_console {A : Type} (h : Heap) (r : nat) (l : LoggerImpl)
    (lv : LogLevel) (msg : string) (args : list (Passed A))
    (console : list (ConsoleCall A)) :
  factory_heap h -> h !! r = Some l ->
  log h r lv msg args console
  = if isLevelEnabled h r lv
    then console
         ++ [ {| stream := if (level_number lv <? 5)%Z then Out else Err;
                 line := "[" +:+ levelToName lv +:+ "] " +:+ name l +:+ " - "
                         +:+ msg;
                 further := args |} ]
    else console.
Proof.
  intros Hheap Hl. unfold log.
  destruct (isLevelEnabled h r lv); [|done].
  unfold logEvent.
  rewrite (logEvent_reaches_console h _ _ Hheap r r r);
    [| lia | lia | by eapply lookup_lt_Some].
  rewrite append_one, Hl. done.
Qed.

(** X21. log on a logger of the factory's heap: when the level of the logger
    (its own, or the one it takes from above) is at most the level of the
    call, the console is called exactly once, with the line
    [[LEVEL] name - msg] and then the further arguments as they were given:
    console.log below ERROR, console.error from ERROR on; otherwise the
    console is not called. A level that is no number lets nothing through. *)
Theorem log_calls_console_once {A : Type} (h : Heap) (r : nat) (l : LoggerImpl)
    (lv : LogLevel) (msg : string) (args : list (Passed A))
    (console : list (ConsoleCall A)) :
  factory_heap h -> h !! r = Some l ->
  (forall own : LogLevel,
      level h r = Lvl own -> (level_number own <= level_number lv)%Z ->
      log h r lv msg args console
      = console
        ++ [ {| stream := match lv with
                          | ERROR | FATAL | OFF => Err
                          | _ => Out
                          end;
                line := "[" +:+ levelToName lv +:+ "] " +:+ name l +:+ " - "
                        +:+ msg;
                further := args |} ])
  /\ (forall own : LogLevel,
        level h r = Lvl own -> (level_number lv < level_number own)%Z ->
        log h r lv msg args console = console)
  /\ (level h r = NotANumber -> log h r lv msg args console = console).
Proof.
  intros Hheap Hl.
  rewrite (log_reaches_console h r l lv msg args console Hheap Hl).
  unfold isLevelEnabled. split; [|split].
  - intros own -> Hle.
    destruct (Z.leb_spec (level_number own) (level_number lv)); [|lia].
    by destruct lv.
  - intros own -> Hlt.
    by destruct (Z.leb_spec (level_number own) (level_number lv)); [lia|].
  - by intros ->.
Qed.

Lemma log_calls_console_once_witness :
  log DemoMore.loggers 1 WARN "low disk" [Value 7%Z] []
  = [ {| stream := Out; line := "[ WARN] app.exec - low disk";
         further := [Value 7%Z] |} ]
  /\ log (A := Z) DemoMore.loggers 1 DEBUG "starting" [] [] = [].
Proof.
  destruct (log_calls_console_once DemoMore.loggers 1
              {| name := "app.exec"; _level := None; parent := Some 0%nat;
                 appender := false |}
              WARN "low disk" [Value 7%Z] [] loggers_factory_heap eq_refl)
    as (Hprinted & _ & _).
  destruct (log_calls_console_once (A := Z) DemoMore.loggers 1
              {| name := "app.exec"; _level := None; parent := Some 0%nat;
                 appender := false |}
              DEBUG "starting" [] [] loggers_factory_heap eq_refl)
    as (_ & Hsilent & _).
  split.
  - by rewrite (Hprinted INFO eq_refl ltac:(simpl; lia)).
  - by rewrite (Hsilent INFO eq_refl ltac:(simpl; lia)).
Defined.

(** X22. trace, debug, info, warn, error and fatal hand their further
    arguments to [log] as one array: a call that passes the level reaches
    the console with the line and always exactly one thing after it, the
    array of the caller's arguments, an empty array when there were none.
    warn goes to console.log, error and fatal go to console.error. *)
Theorem level_methods_pass_one_array {A : Type} (h : Heap) (r : nat)
    (l : LoggerImpl) (msg : string) (args : list A)
    (console : list (ConsoleCall A)) :
  factory_heap h -> h !! r = Some l ->
  Forall
    (fun '(method, lv, to) =>
       method h r msg args console
       = if isLevelEnabled h r lv
         then console
              ++ [ {| stream := to;
                      line := "[" +:+ levelToName lv +:+ "] " +:+ name l
                              +:+ " - " +:+ msg;
                      further := [Rest args] |} ]
         else console)
    [ (trace, TRACE, Out); (debug, DEBUG, Out); (info, INFO, Out);
      (warn, WARN, Out); (error, ERROR, Err); (fatal, FATAL, Err) ].
Proof.
  intros Hheap Hl.
  pose proof (fun lv => log_reaches_console h r l lv msg [Rest args] console
                          Hheap Hl) as Hlog.
  repeat apply Forall_cons_2; [..|apply Forall_nil_2].
  - exact (Hlog TRACE).
  - exact (Hlog DEBUG).
  - exact (Hlog INFO).
  - exact (Hlog WARN).
  - exact (Hlog ERROR).
  - exact (Hlog FATAL).
Qed.

Lemma level_methods_pass_one_array_witness :
  info (A := Z) DemoMore.loggers 1 "done" [] []
  = [ {| stream := Out; line := "[ INFO] app.exec - done";
         further := [Rest []] |} ].
Proof.
  pose proof (level_methods_pass_one_array (A := Z) DemoMore.loggers 1
                {| name := "app.exec"; _level := None; parent := Some 0%nat;
                   appender := false |}
                "done" [] [] loggers_factory_heap eq_refl) as Hall.
  apply Forall_cons in Hall as [_ Hall]. apply Forall_cons in Hall as [_ Hall].
  apply Forall_cons in Hall as [Hinfo _]. exact Hinfo.
Defined.

(** X23. The exported getLogger: a name is taken with or without the
    suffix [.js]; the new logger is the youngest object of the heap, named
    [<root name>.<name>] with the root's name of that moment, or just
    [<name>] when [relative] is false; it has no level of its own and so the
    root's level; and renaming the root later does not rename it. *)
Theorem getLogger_names (h : Heap) (root : LoggerImpl) (base : string)
    (relative : option bool) :
  factory_heap h -> h !! rootLogger = Some root ->
  Util.ends_with ".js" base = false ->
  let child :=
    {| name := if bool_decide (relative = Some false) then base
               else name root +:+ "." +:+ base;
       _level := None; parent := Some rootLogger; appender := false |} in
  getLogger (base +:+ ".js") relative h = (h ++ [child], length h)
  /\ getLogger base relative h = (h ++ [child], length h)
  /\ level (h ++ [child]) (length h) = level h rootLogger
  /\ (forall rootName : string,
        LoggerFactory_set_rootName rootName (h ++ [child]) !! length h
        = Some child).
Proof.
  intros Hheap Hroot Hbase child.
  assert (Hlen : (rootLogger < length h)%nat) by by apply factory_heap_root.
  assert (Hmade : LoggerFactory_getLogger base relative h
                  = (h ++ [child], length h)).
  { unfold LoggerFactory_getLogger, LoggerImpl_getLogger. by rewrite Hroot. }
  assert (Hchild : (h ++ [child]) !! length h = Some child).
  { rewrite lookup_app_r by lia. by rewrite Nat.sub_diag. }
  split; [|split; [|split]].
  - unfold getLogger. rewrite ends_with_app, string_length_app.
    replace (String.length base + String.length ".js" - 3)%nat
      with (String.length base) by (simpl; lia).
    by rewrite substring_0_app.
  - unfold getLogger. by rewrite Hbase.
  - destruct Hheap as (Hwf & _).
    assert (Hwf' : parents_older (h ++ [child]))
      by by apply (parents_older_child h child rootLogger).
    rewrite (level_unfold _ _ child Hwf' Hchild). simpl.
    assert (Hroot' : (h ++ [child]) !! rootLogger = Some root)
      by by apply lookup_app_l_Some.
    rewrite (level_unfold _ _ root Hwf' Hroot'), (level_unfold _ _ root Hwf Hroot).
    destruct (_level root); [done|].
    destruct (parent root) as [p|] eqn:Hp; [|done].
    pose proof (Hwf _ _ _ Hroot Hp). unfold rootLogger in *. lia.
  - intros rootName. unfold LoggerFactory_set_rootName.
    rewrite list_lookup_alter_ne; [done|]. unfold rootLogger in *. lia.
Qed.

Lemma getLogger_names_witness :
  getLogger "build.js" None LoggerFactory_new
  = (LoggerFactory_new
     ++ [ {| name := "app.build"; _level := None; parent := Some 0%nat;
             appender := false |} ], 1%nat)
  /\ getLogger "task.build" (Some false) LoggerFactory_new
     = (LoggerFactory_new
        ++ [ {| name := "task.build"; _level := None; parent := Some 0%nat;
                appender := false |} ], 1%nat).
Proof.
  split.
  - apply (getLogger_names LoggerFactory_new _ "build" None
             factory_heap_new eq_refl eq_refl).
  - apply (getLogger_names LoggerFactory_new _ "task.build" (Some false)
             factory_heap_new eq_refl eq_refl).
Defined.

(** X24. isLevelEnabled is upward closed in the level asked for. isOff asks
    for OFF, the highest level, so it answers true for every logger whose
    level is a number, a logger at TRACE included; isEnabled negates the
    method [isOff] itself instead of its answer and is false for every
    logger. *)
Theorem isOff_is_true_isEnabled_is_false (h : Heap) (r : nat) :
  (forall a b : LogLevel,
      isLevelEnabled h r a = true ->
      (level_number a <= level_number b)%Z ->
      isLevelEnabled h r b = true)
  /\ (isOff h r = true <-> level h r <> NotANumber)
  /\ isEnabled h r = false.
Proof.
  unfold isOff, isLevelEnabled. split; [|split; [|done]].
  - intros a b Ha Hab. destruct (level h r) as [own|]; [|done].
    apply Z.leb_le in Ha. apply Z.leb_le. lia.
  - destruct (level h r) as [own|]; [|by split].
    split; [done|]. intros _. by destruct own.
Qed.

Lemma lower_idemp (c : ascii) : lower (lower c) = lower c.
Proof. by destruct c as [[] [] [] [] [] [] [] []]. Qed.

(** X25. parseLevel reads a name in any case of letters: lowering the name
    first changes nothing. The names shown in log lines do not all read
    back: TRACE, DEBUG, ERROR and FATAL give their level, the names of WARN,
    INFO and OFF are padded with blanks and give the default level. *)
Theorem parseLevel_reads_any_case (levelName : string) (defaultLevel : LogLevel) :
  parseLevel (toLowerCase levelName) defaultLevel
  = parseLevel levelName defaultLevel
  /\ (forall l : LogLevel,
        parseLevel (levelToName l) defaultLevel
        = Lvl match l with
              | WARN | INFO | OFF => defaultLevel
              | _ => l
              end).
Proof.
  split.
  - unfold parseLevel. f_equal. f_equal.
    induction levelName as [|c rest IH]; [done|].
    simpl. by rewrite lower_idemp, IH.
  - by intros [].
Qed.

End LoggerFacts.
